(** * The Charney-Eliassen (1949) notebook: a shallow embedding

    The notebook [Charney_Eliassen_1949.ipynb] computes the stationary,
    linearised barotropic response of a westerly flow to topography on one
    latitude circle: build a periodic grid, take a topography profile,
    transform it, divide by a per-wavenumber transfer denominator and
    transform back.

    Numbers.  The notebook computes in IEEE binary64.  In the body of the
    development rounding is not modelled: a finite value is an exact
    real.  The one place where rounding decides more than the last digits
    of a result is the grid: [np.arange] takes the number of grid points
    from the rounded quotient [(stop - start)/step], and one unit in the
    last place of that quotient is one grid point.  The module [Binary64]
    therefore evaluates the grid cell in binary64 itself.

    What the exact model follows is the
    difference between the two kinds of division the notebook performs.
    A division between plain Python floats ([r = 1./tau]) raises
    [ZeroDivisionError] on a zero divisor; a division in which a numpy
    scalar or array takes part ([beta/u], [2.*np.pi/Lx], the array
    quotients) raises nothing and yields an infinity or a NaN.  Such a
    value is [NonFin]; the embedding does not follow what arithmetic on
    infinities gives, a non-finite operand makes the result [NonFin]. *)

From Stdlib Require Import Reals Psatz List ZArith.
From Stdlib Require Floats.PrimFloat Floats.FloatOps Floats.SpecFloat.
Import ListNotations.
Local Open Scope R_scope.

(** ** Python exceptions *)

Inductive exn : Type :=
| ZeroDivisionError
| ValueError
| IndexError.

Inductive result (A : Type) : Type :=
| Ok (v : A)
| Raise (e : exn).

Arguments Ok {A} v.
Arguments Raise {A} e.

Definition bind {A B : Type} (ra : result A) (f : A -> result B) : result B :=
  match ra with
  | Ok v => f v
  | Raise e => Raise e
  end.

Notation "x <- e1 ;; e2" := (bind e1 (fun x => e2))
  (at level 61, e1 at next level, right associativity).

(** ** numpy values: finite, or an infinity / NaN *)

Inductive np (A : Type) : Type :=
| Fin (v : A)
| NonFin.

Arguments Fin {A} v.
Arguments NonFin {A}.

Definition np_map {A B : Type} (f : A -> B) (x : np A) : np B :=
  match x with
  | Fin v => Fin (f v)
  | NonFin => NonFin
  end.

Definition np_map2 {A B D : Type} (f : A -> B -> D) (x : np A) (y : np B) : np D :=
  match x, y with
  | Fin v, Fin w => Fin (f v w)
  | _, _ => NonFin
  end.

Definition np_add : np R -> np R -> np R := np_map2 Rplus.
Definition np_sub : np R -> np R -> np R := np_map2 Rminus.
Definition np_mul : np R -> np R -> np R := np_map2 Rmult.

(** numpy true division: no exception, a zero divisor gives inf or nan. *)
Definition np_div (x y : np R) : np R :=
  match x, y with
  | Fin v, Fin w => if Req_dec_T w 0 then NonFin else Fin (v / w)
  | _, _ => NonFin
  end.

(** [x ** 2.] *)
Definition np_pow2 (x : np R) : np R := np_map (fun v => v ^ 2) x.

(** Division of two plain Python floats. *)
Definition py_div (v w : R) : result R :=
  if Req_dec_T w 0 then Raise ZeroDivisionError else Ok (v / w).

(** ** Complex numbers *)

Record C : Type := mkC { re : R; im : R }.

Definition C0 : C := mkC 0 0.
Definition Ci : C := mkC 0 1.
Definition RtoC (v : R) : C := mkC v 0.
Definition Cadd (z w : C) : C := mkC (re z + re w) (im z + im w).
Definition Csub (z w : C) : C := mkC (re z - re w) (im z - im w).
Definition Cmul (z w : C) : C :=
  mkC (re z * re w - im z * im w) (re z * im w + im z * re w).
Definition Cconj (z : C) : C := mkC (re z) (- im z).
Definition Cdiv (z w : C) : C :=
  let d := re w ^ 2 + im w ^ 2 in
  mkC ((re z * re w + im z * im w) / d) ((im z * re w - re z * im w) / d).

Definition Cis_zero (w : C) : bool :=
  if Req_dec_T (re w) 0 then (if Req_dec_T (im w) 0 then true else false)
  else false.

Definition np_cadd : np C -> np C -> np C := np_map2 Cadd.
Definition np_csub : np C -> np C -> np C := np_map2 Csub.
Definition np_cmul : np C -> np C -> np C := np_map2 Cmul.
Definition np_RtoC : np R -> np C := np_map RtoC.
Definition np_real : np C -> np R := np_map re.
Definition np_imag : np C -> np R := np_map im.

(** numpy complex division: [0j] as divisor gives nan. *)
Definition np_cdiv (x y : np C) : np C :=
  match x, y with
  | Fin z, Fin w => if Cis_zero w then NonFin else Fin (Cdiv z w)
  | _, _ => NonFin
  end.

(** ** Arrays *)

(** Elementwise binary operation on two one-dimensional arrays, with
    numpy's broadcasting of a length-one operand. *)
Definition broadcast2 {A B D : Type} (f : A -> B -> D)
    (xs : list A) (ys : list B) : result (list D) :=
  if Nat.eqb (length xs) (length ys)
  then Ok (map (fun p => f (fst p) (snd p)) (combine xs ys))
  else match xs, ys with
       | [v], _ => Ok (map (f v) ys)
       | _, [w] => Ok (map (fun v => f v w) xs)
       | _, _ => Raise ValueError
       end.

(** A slice bound as Python resolves it against a length. *)
Definition slice_bound (len i : Z) : Z :=
  if (i <? 0)%Z then Z.max 0 (i + len) else Z.min i len.

(** [l[start:stop]] *)
Definition py_slice {A : Type} (l : list A) (start stop : Z) : list A :=
  let len := Z.of_nat (length l) in
  let s := slice_bound len start in
  let e := slice_bound len stop in
  firstn (Z.to_nat (e - s)) (skipn (Z.to_nat s) l).

(** [l[start:stop] = v] on a numpy array. *)
Definition slice_assign {A : Type} (l : list A) (start stop : Z) (v : list A)
  : result (list A) :=
  let len := Z.of_nat (length l) in
  let s := Z.to_nat (slice_bound len start) in
  let w := Z.to_nat (slice_bound len stop - slice_bound len start) in
  if Nat.eqb (length v) w
  then Ok (firstn s l ++ v ++ skipn (s + w) l)
  else match v with
       | [y] => Ok (firstn s l ++ repeat y w ++ skipn (s + w) l)
       | _ => Raise ValueError
       end.

(** [l[i] = v] *)
Definition set_item {A : Type} (l : list A) (i : nat) (v : A) : result (list A) :=
  if Nat.ltb i (length l)
  then Ok (firstn i l ++ v :: skipn (S i) l)
  else Raise IndexError.

(** All entries of an array, when every one of them is finite. *)
Fixpoint all_fin {A : Type} (l : list (np A)) : option (list A) :=
  match l with
  | [] => Some []
  | Fin v :: t => option_map (cons v) (all_fin t)
  | NonFin :: _ => None
  end.

Definition ceil (v : R) : Z := (1 - up (- v))%Z.

(** [np.arange(start, stop, step)]: [ceil((stop - start)/step)] values
    [start + i*step].  A step for which no length can be computed is an
    error.  The quotient is the exact one here.  numpy rounds it to
    binary64 before taking the ceiling, so that the array it returns can
    hold one value more than this one: [Binary64.arange64] follows the
    rounded quotient. *)
Definition arange (start stop : R) (step : np R) : result (list R) :=
  match step with
  | Fin s =>
      match np_div (Fin (stop - start)) (Fin s) with
      | Fin q => Ok (map (fun i => start + INR i * s) (seq 0 (Z.to_nat (ceil q))))
      | NonFin => Raise ValueError
      end
  | NonFin => Raise ValueError
  end.

(** [a.argmin()]: index of the first least entry. *)
Fixpoint argmin_from (best : R) (bi i : nat) (l : list R) : nat :=
  match l with
  | [] => bi
  | v :: t => if Rlt_dec v best then argmin_from v i (S i) t
              else argmin_from best bi (S i) t
  end.

Definition argmin (l : list R) : result nat :=
  match l with
  | [] => Raise ValueError
  | v :: t => Ok (argmin_from v 0%nat 1%nat t)
  end.

Definition Rsum (l : list R) : R := fold_right Rplus 0 l.

(** [rows.mean(axis=0)] for a block of rows of [ncols] columns each. *)
Definition mean_axis0 (ncols : nat) (rows : list (list R)) : list (np R) :=
  map (fun j => np_div (Fin (Rsum (map (fun row => nth j row 0) rows)))
                       (Fin (INR (length rows))))
      (seq 0 ncols).

(** ** Discrete Fourier transform

    [fft] and [ifft] are library routines; they are modelled by the
    transform they compute. *)

Definition cis (t : R) : C := mkC (cos t) (sin t).

Definition Csum (l : list C) : C := fold_right Cadd C0 l.

Definition dft_coeff (sgn : R) (v : list C) (j : nat) : C :=
  Csum (map (fun i => Cmul (nth i v C0)
                           (cis (sgn * (2 * PI * INR j * INR i / INR (length v)))))
            (seq 0 (length v))).

Definition dft (v : list C) : list C :=
  map (dft_coeff (-1) v) (seq 0 (length v)).

Definition idft (v : list C) : list C :=
  map (fun j => Cmul (RtoC (/ INR (length v))) (dft_coeff 1 v j))
      (seq 0 (length v)).

(** A transform of an array holding an infinity or a NaN is non-finite
    throughout; an empty array is rejected. *)
Definition np_transform (t : list C -> list C) (v : list (np C))
  : result (list (np C)) :=
  match v with
  | [] => Raise ValueError
  | _ :: _ =>
      match all_fin v with
      | Some w => Ok (map Fin (t w))
      | None => Ok (map (fun _ => NonFin) v)
      end
  end.

Definition fft : list (np C) -> result (list (np C)) := np_transform dft.
Definition ifft : list (np C) -> result (list (np C)) := np_transform idft.

(** ** The notebook *)

Module CE.

(** *** Configuration

    The values a user of the notebook sets: latitude in degrees, number of
    grid boxes, zonal wind, meridional wavenumber, damping time. *)

Record config : Type := mkConfig {
  latd : R;
  n : nat;
  u : R;
  m : R;
  tau : R
}.

(** *** Domain and planetary constants *)

Definition g : R := 98 / 10.
Definition H : R := 8000.
Definition a : R := 6371000.
Definition omega : R := 2 * PI / 86164.

Definition deg2rad (d : R) : R := d * (PI / 180).

Definition latr (c : config) : R := deg2rad (latd c).
Definition f0 (c : config) : R := 2 * omega * sin (latr c).
Definition beta (c : config) : R := 2 * omega * cos (latr c) / a.
Definition Lx (c : config) : R := 2 * PI * a * cos (latr c).

(** Grid spacing [dx = Lx/n] and the grid [x = np.arange(-Lx/2., Lx/2., dx)],
    as functions of the circumference and the number of boxes. *)
Definition spacing (L : R) (nn : nat) : np R := np_div (Fin L) (Fin (INR nn)).
Definition grid (L : R) (nn : nat) : result (list R) :=
  arange (- L / 2) (L / 2) (spacing L nn).

Definition dx (c : config) : np R := spacing (Lx c) (n c).
Definition x (c : config) : result (list R) := grid (Lx c) (n c).
Definition ns (c : config) : list nat := seq 0 (n c).

(** *** Model parameters *)

Definition k (c : config) : np R := np_div (Fin (2 * PI)) (Fin (Lx c)).
Definition Ks2 (c : config) : np R := np_div (Fin (beta c)) (Fin (u c)).
Definition K2 (c : config) : list (np R) :=
  map (fun j => np_add (np_pow2 (np_mul (k c) (Fin (INR j)))) (Fin (m c ^ 2)))
      (ns c).
Definition r (c : config) : result R := py_div 1 (tau c).

(** [eps = ns*0.] followed by
    [eps[1:n] = r*K2[1:n]/(k*ns[1:n]*u)]. *)
Definition eps (c : config) : result (list (np R)) :=
  r_ <- r c ;;
  let eps0 := map (fun j => Fin (INR j * 0)) (ns c) in
  let nn := Z.of_nat (n c) in
  let num := map (np_mul (Fin r_)) (py_slice (K2 c) 1 nn) in
  let den := map (fun j => np_mul (np_mul (k c) (Fin (INR j))) (Fin (u c)))
                 (py_slice (ns c) 1 nn) in
  rhs <- broadcast2 np_div num den ;;
  slice_assign eps0 1 nn rhs.

(** What the cell leaves behind, or the exception that stops it. *)
Record parameters : Type := mkParameters {
  p_k : np R;
  p_Ks2 : np R;
  p_K2 : list (np R);
  p_r : R;
  p_eps : list (np R)
}.

Definition model_parameters (c : config) : result parameters :=
  r_ <- r c ;;
  e <- eps c ;;
  Ok (mkParameters (k c) (Ks2 c) (K2 c) r_ e).

(** The notebook as distributed. *)
Definition notebook : config :=
  mkConfig 45 480 25 (2 * PI / 8000000) (5 * 86164).

(** *** Gaussian topography *)

Definition gaussian_topography (xs : list R) : list R :=
  let h0 := 4000 in
  let dx_h := 1000000 in
  let A := h0 * dx_h in
  map (fun xi => A * exp (- (xi ^ 2) / dx_h ^ 2) / (sqrt PI * dx_h)) xs.

(** *** Real world topography

    The file is seen as its latitude coordinate and the surface
    geopotential indexed [[time][latitude][longitude]], every row of the same
    length. *)

Record dataset : Type := mkDataset {
  latitude : list R;
  srfgeo : list (list (list R))
}.

Definition world_topography (ds : dataset) (c : config) : result (list (np R)) :=
  iy <- argmin (map (fun l => Rabs (l - latd c)) (latitude ds)) ;;
  match srfgeo ds with
  | [] => Raise IndexError
  | slab :: _ =>
      let rows := py_slice slab (Z.of_nat iy - 5) (Z.of_nat iy + 5) in
      Ok (map (fun v => np_div v (Fin g))
              (mean_axis0 (length (hd [] slab)) rows))
  end.

(** *** Analytic solution to the barotropic vorticity equation *)

(** [sh = fft(h)] followed by [sh[0] = 0.] *)
Definition sh (h : list (np R)) : result (list (np C)) :=
  s <- fft (map np_RtoC h) ;;
  set_item s 0 (Fin C0).

(** [H*(K2 - Ks2 - 1j*eps)] *)
Definition denom (c : config) : result (list (np C)) :=
  e <- eps c ;;
  d <- broadcast2 np_csub
         (map (fun v => np_RtoC (np_sub v (Ks2 c))) (K2 c))
         (map (fun v => np_cmul (Fin Ci) (np_RtoC v)) e) ;;
  Ok (map (np_cmul (Fin (RtoC H))) d).

(** [spsi = f0*sh/(H*(K2 - Ks2 - 1j*eps))] *)
Definition spsi (c : config) (h : list (np R)) : result (list (np C)) :=
  s <- sh h ;;
  d <- denom c ;;
  broadcast2 np_cdiv (map (np_cmul (Fin (RtoC (f0 c)))) s) d.

(** The inverse transform before its real part is taken. *)
Definition psi_complex (c : config) (h : list (np R)) : result (list (np C)) :=
  s <- spsi c h ;;
  ifft s.

(** [psi = np.real(ifft(spsi))] *)
Definition psi (c : config) (h : list (np R)) : result (list (np R)) :=
  p <- psi_complex c h ;;
  Ok (map np_real p).

(** *** Plot results

    The numbers the last cell draws: the grid in degrees of longitude
    [x_degrees = x*360./Lx], the response as a geopotential height
    [psi*f0/g], and the ERA-Interim 500 hPa height on the same latitude
    band, [z = ds['z'][0,0,iy-5:iy+5,:].mean(axis=0)/g] followed by
    [z -= np.mean(z,axis=0)].  The upper-air file is seen as its latitude
    coordinate and [z] indexed [[time][level][latitude][longitude]]. *)

Definition x_degrees (c : config) : result (list (np R)) :=
  xs <- x c ;;
  Ok (map (fun v => np_div (Fin (v * 360)) (Fin (Lx c))) xs).

Definition psi_height (c : config) (h : list (np R)) : result (list (np R)) :=
  p <- psi c h ;;
  Ok (map (fun v => np_div (np_mul v (Fin (f0 c))) (Fin g)) p).

Record upper_air : Type := mkUpperAir {
  ua_latitude : list R;
  ua_z : list (list (list (list R)))
}.

Definition np_sum (l : list (np R)) : np R := fold_right np_add (Fin 0) l.

(** [np.mean(z, axis=0)] of a one-dimensional array. *)
Definition np_mean (l : list (np R)) : np R :=
  np_div (np_sum l) (Fin (INR (length l))).

Definition z_anomaly (ds : upper_air) (c : config) : result (list (np R)) :=
  iy <- argmin (map (fun l => Rabs (l - latd c)) (ua_latitude ds)) ;;
  match ua_z ds with
  | [] => Raise IndexError
  | levels :: _ =>
      match levels with
      | [] => Raise IndexError
      | slab :: _ =>
          let rows := py_slice slab (Z.of_nat iy - 5) (Z.of_nat iy + 5) in
          let z := map (fun v => np_div v (Fin g))
                       (mean_axis0 (length (hd [] slab)) rows) in
          Ok (map (fun v => np_sub v (np_mean z)) z)
      end
  end.

(** The solution cell with each of its two topographies:
    [h = gaussian_topography()] or [h = world_topography()], followed by
    the transforms.  [gaussian_topography] reads the global array [x]:
    [xs] is that array as the grid cell left it. *)
Definition solution_gaussian (c : config) (xs : list R) : result (list (np R)) :=
  psi c (map Fin (gaussian_topography xs)).

Definition solution_world (ds : dataset) (c : config) : result (list (np R)) :=
  h <- world_topography ds c ;;
  psi c h.

End CE.

Import CE.

(** ** The grid cell in binary64

    [dx = Lx/n], [x = np.arange(-Lx/2., Lx/2., dx)] and
    [x_degrees = x*360./Lx] on binary64 values, every operation rounded
    to nearest as the notebook performs it.  [Lx] is an input here: it is
    the binary64 number that [2.*np.pi*a*np.cos(latr)] left in the
    variable. *)

Module Binary64.

Import PrimFloat FloatOps SpecFloat.
Local Open Scope float_scope.

(** The integer [ceil(q)] of a binary64 number, read off its mantissa and
    exponent; an infinity or a NaN has none. *)
Definition ceil64 (q : float) : option Z :=
  match Prim2SF q with
  | S754_zero _ => Some 0%Z
  | S754_finite s mant e =>
      let num := if s then Z.neg mant else Z.pos mant in
      Some (match e with
            | Z.neg p => (- ((- num) / Z.pow_pos 2 p))%Z
            | _ => (num * 2 ^ e)%Z
            end)
  | _ => None
  end.

(** An index or a count as a binary64 number (exact below [2**53]). *)
Definition of_nat64 (i : nat) : float :=
  of_uint63 (Uint63Axioms.of_Z (Z.of_nat i)).

(** [np.arange(start, stop, step)] on binary64 arguments.  The length is
    the ceiling of the rounded quotient [(stop - start)/step].  numpy
    stores [start] and [start + step] and fills the rest as
    [start + i*delta], with [delta] the difference of the two stored
    values. *)
Definition arange64 (start stop step : float) : result (list float) :=
  match ceil64 ((stop - start) / step) with
  | Some len =>
      let next := start + step in
      let delta := next - start in
      Ok (map (fun i => match i with
                        | O => start
                        | S O => next
                        | _ => start + of_nat64 i * delta
                        end)
              (seq 0 (Z.to_nat len)))
  | None => Raise ValueError
  end.

Definition spacing64 (L : float) (nn : nat) : float := L / of_nat64 nn.

Definition grid64 (L : float) (nn : nat) : result (list float) :=
  arange64 (- L / 2) (L / 2) (spacing64 L nn).

(** [x_degrees = x*360./Lx]. *)
Definition degrees64 (L : float) (xs : list float) : list float :=
  map (fun v => v * 360 / L) xs.

(** [lo <= v < hi] for every entry. *)
Definition within (lo hi : float) (l : list float) : bool :=
  forallb (fun v => leb lo v && ltb v hi)%bool l.

(** Every entry below the next one. *)
Fixpoint increasing (l : list float) : bool :=
  match l with
  | v :: (w :: _) as t => (ltb v w && increasing t)%bool
  | _ => true
  end.

(** The circumference [Lx] that the parameter cell computes at
    [latd = 45.] and at [latd = 33.]:
    [28305607.199006952] and [33572128.42139106]. *)
Definition Lx45 : float := 0x1.afe8c732f21eap+24.
Definition Lx33 : float := 0x1.00229035f0247p+25.

Definition positive (v : float) : bool := ltb 0 v.

(** The two ends [-Lx/2.] and [Lx/2.] handed to [np.arange], the
    quotient it takes the length from, the end [180] of the plotted axis
    and the binary64 number next below [-180],
    [-180.00000000000003]. *)
Definition lower (L : float) : float := - L / 2.
Definition upper (L : float) : float := L / 2.
Definition quotient64 (L : float) (nn : nat) : float :=
  (upper L - lower L) / spacing64 L nn.
Definition east : float := 180.
Definition below_west : float := -0x1.6800000000001p+7.

End Binary64.

Import Binary64.

(** ** Closed forms

    The real-number expressions the arrays of the notebook hold when every
    division is defined. *)

(** Zonal wavenumber of index [j]: [k_j = 2*pi*j/Lx]. *)
Definition k_j (c : config) (j : nat) : np R :=
  np_div (Fin (2 * PI * INR j)) (Fin (Lx c)).

Definition kr (c : config) : R := 2 * PI / Lx c.
Definition Ks2r (c : config) : R := beta c / u c.
Definition K2r (c : config) (j : nat) : R := (kr c * INR j) ^ 2 + m c ^ 2.
Definition epsr (c : config) (j : nat) : R :=
  match j with
  | O => 0
  | S _ => 1 / tau c * K2r c j / (kr c * INR j * u c)
  end.

(** The transfer denominator [H*(K2[j] - Ks2 - 1j*eps[j])]. *)
Definition denomr (c : config) (j : nat) : C :=
  mkC (H * (K2r c j - Ks2r c)) (- (H * epsr c j)).

(** The Gaussian profile as the specification writes it:
    [h(x) = h0*dx_h*exp(-(x/dx_h)^2)/sqrt(pi*dx_h^2)]. *)
Definition gaussian_height (h0 dx_h xi : R) : R :=
  h0 * dx_h * exp (- (xi / dx_h) ^ 2) / sqrt (PI * dx_h ^ 2).

(** One entry of [K2], as the notebook computes it. *)
Definition K2_at (c : config) (j : nat) : np R :=
  np_add (np_pow2 (np_mul (k c) (Fin (INR j)))) (Fin (m c ^ 2)).

(** One entry of the right-hand side assigned to [eps[1:n]]. *)
Definition eps_at (c : config) (j : nat) : np R :=
  np_div (np_mul (Fin (1 / tau c)) (K2_at c j))
         (np_mul (np_mul (k c) (Fin (INR j))) (Fin (u c))).

(** The spectrum after [sh[0] = 0.] for a finite real field [hr]. *)
Definition shr (hr : list R) (j : nat) : C :=
  match j with
  | O => C0
  | S _ => dft_coeff (-1) (map RtoC hr) j
  end.

(** [f0*sh[j]/(H*(K2[j] - Ks2 - 1j*eps[j]))] *)
Definition spsir (c : config) (hr : list R) (j : nat) : C :=
  Cdiv (Cmul (RtoC (f0 c)) (shr hr j)) (denomr c j).

(** The ranges the data model gives the configuration: a latitude strictly
    between the poles, a westerly wind, a positive damping time, a grid of
    at least one box. *)
Definition valid_config (c : config) : Prop :=
  -90 < latd c < 90 /\ 0 < u c /\ 0 < tau c /\ (0 < n c)%nat.

(** The external-data variant as the specification words it: the band is
    the nearest row with five rows on either side, [iy-5 .. iy+5]. *)
Definition world_topography_symmetric (ds : dataset) (c : config)
  : result (list (np R)) :=
  iy <- argmin (map (fun l => Rabs (l - latd c)) (latitude ds)) ;;
  match srfgeo ds with
  | [] => Raise IndexError
  | slab :: _ =>
      let rows := py_slice slab (Z.of_nat iy - 5) (Z.of_nat iy + 5 + 1) in
      Ok (map (fun v => np_div v (Fin g))
              (mean_axis0 (length (hd [] slab)) rows))
  end.

(** ** Configurations and data used as examples *)

(** Eleven latitude rows, one degree apart, one longitude; the geopotential
    is zero except on the last row, five rows after the one at 45 degrees. *)
Definition ridge : dataset :=
  mkDataset [50; 49; 48; 47; 46; 45; 44; 43; 42; 41; 40]
            [[[0]; [0]; [0]; [0]; [0]; [0]; [0]; [0]; [0]; [0]; [11 * g]]].

(** Two grid boxes, unit damping time, meridional wavenumber [m = 1] and
    the wind set to [u = beta], so that [Ks2 = beta/u = 1 = m**2]: the
    zonal-mean mode is resonant.  (In general that is [u = beta/m**2]; with
    the notebook's [m] at latitude 45 it is a wind of about 26 m/s.) *)
Definition resonant_at (lat : R) : config :=
  mkConfig lat 2 (2 * omega * cos (deg2rad lat) / a) 1 1.

(** The grid of the notebook and its Gaussian topography on it. *)
Definition notebook_grid : list R :=
  map (fun i => - Lx notebook / 2 + INR i * (Lx notebook / INR (n notebook)))
      (seq 0 (n notebook)).
Definition notebook_h : list R := gaussian_topography notebook_grid.

(** A unit bump in the first grid box of the notebook's grid. *)
Definition impulse : list R := 1 :: repeat 0 479.

(** The notebook's configuration on two grid boxes. *)
Definition coarse : config := mkConfig 45 2 25 (2 * PI / 8000000) (5 * 86164).

(** The notebook's configuration moved to the equator. *)
Definition equatorial : config := mkConfig 0 480 25 (2 * PI / 8000000) (5 * 86164).

(** The notebook's configuration with the wind set to zero. *)
Definition calm : config := mkConfig 45 480 0 (2 * PI / 8000000) (5 * 86164).

(** ** Further notions used to state properties of the notebook *)

(** The same configuration on the other hemisphere. *)
Definition mirror (c : config) : config :=
  mkConfig (- latd c) (n c) (u c) (m c) (tau c).

(** The field [a*h1 + h2], entry by entry. *)
Definition axpy (s : R) (h1 h2 : list R) : list R :=
  map (fun p => s * fst p + snd p) (combine h1 h2).

(** Squared modulus. *)
Definition Cnormsq (w : C) : R := re w ^ 2 + im w ^ 2.

(** The rows [band[t] = slab[iy-5+t]] that [iy-5:iy+5] selects when
    [iy >= 5]. *)
Definition band {A : Type} (slab : list A) (iy : nat) : list A :=
  firstn 10 (skipn (iy - 5) slab).

(** Mean of column [j] over a block of rows. *)
Definition column_mean (rows : list (list R)) (j : nat) : R :=
  Rsum (map (fun row => nth j row 0) rows) / INR (length rows).

(** The notebook's configuration with the damping time set to zero. *)
Definition undamped : config := mkConfig 45 480 25 (2 * PI / 8000000) 0.

(** The notebook's configuration at 49 degrees: on [ridge] the nearest
    latitude row is the second one. *)
Definition northern : config := mkConfig 49 480 25 (2 * PI / 8000000) (5 * 86164).

(** An upper-air file on the latitudes of [ridge], one time, one level,
    two longitudes. *)
Definition ridge500 : upper_air :=
  mkUpperAir [50; 49; 48; 47; 46; 45; 44; 43; 42; 41; 40]
             [[[[1; 3]; [1; 3]; [1; 3]; [1; 3]; [1; 3]; [1; 3]; [1; 3];
                [1; 3]; [1; 3]; [1; 3]; [1; 3]]]].

(** A surface file on the latitudes of [ridge] with two longitudes. *)
Definition ridge2 : dataset :=
  mkDataset [50; 49; 48; 47; 46; 45; 44; 43; 42; 41; 40]
            [[[0; 1]; [0; 1]; [0; 1]; [0; 1]; [0; 1]; [0; 1]; [0; 1]; [0; 1];
              [0; 1]; [0; 1]; [0; 1]]].

(** ** Complex arithmetic *)

Lemma C_eq (z w : C) : re z = re w -> im z = im w -> z = w.
Proof. destruct z, w; simpl; intros -> ->; reflexivity. Qed.

(** Componentwise proof of an equation between complex numbers. *)
Ltac Ceq :=
  apply C_eq; cbn [re im Cadd Csub Cmul Cconj RtoC C0 Ci cis]; try ring.

Lemma Cadd_0_l (z : C) : Cadd C0 z = z.
Proof. Ceq. Qed.

Lemma Cadd_0_r (z : C) : Cadd z C0 = z.
Proof. Ceq. Qed.

Lemma Cadd_comm (z w : C) : Cadd z w = Cadd w z.
Proof. Ceq. Qed.

Lemma Cadd_assoc (z w v : C) : Cadd z (Cadd w v) = Cadd (Cadd z w) v.
Proof. Ceq. Qed.

Lemma Cmul_0_l (z : C) : Cmul C0 z = C0.
Proof. Ceq. Qed.

Lemma Cmul_0_r (z : C) : Cmul z C0 = C0.
Proof. Ceq. Qed.

Lemma Cmul_comm (z w : C) : Cmul z w = Cmul w z.
Proof. Ceq. Qed.

Lemma Cmul_assoc (z w v : C) : Cmul z (Cmul w v) = Cmul (Cmul z w) v.
Proof. Ceq. Qed.

Lemma Cmul_add_distr_l (z w v : C) : Cmul z (Cadd w v) = Cadd (Cmul z w) (Cmul z v).
Proof. Ceq. Qed.

Lemma Cmul_add_distr_r (z w v : C) : Cmul (Cadd z w) v = Cadd (Cmul z v) (Cmul w v).
Proof. Ceq. Qed.

Lemma Cis_zero_true (w : C) : Cis_zero w = true <-> w = C0.
Proof.
  unfold Cis_zero. destruct w as [p q]. cbn [re im].
  destruct (Req_dec_T p 0) as [Hp|Hp]; [destruct (Req_dec_T q 0) as [Hq|Hq]|].
  - subst. split; reflexivity.
  - split; [discriminate|]. intros Hz. injection Hz as _ Hq'. contradiction.
  - split; [discriminate|]. intros Hz. injection Hz as Hp' _. contradiction.
Qed.

Lemma Cis_zero_false (w : C) : Cis_zero w = false <-> w <> C0.
Proof.
  rewrite <- Cis_zero_true. destruct (Cis_zero w); split; congruence.
Qed.

Lemma Cnorm2_pos (w : C) : w <> C0 -> 0 < re w ^ 2 + im w ^ 2.
Proof.
  intros Hw. destruct w as [p q]. cbn [re im].
  destruct (Req_dec_T p 0) as [Hp|Hp].
  - destruct (Req_dec_T q 0) as [Hq|Hq]; [subst; now elim Hw|]. nra.
  - nra.
Qed.

Lemma Cdiv_0_l (w : C) : Cdiv C0 w = C0.
Proof. unfold Cdiv. Ceq; unfold Rdiv; ring. Qed.

Lemma Cdiv_mul (z w : C) : w <> C0 -> Cmul (Cdiv z w) w = z.
Proof.
  intros Hw. pose proof (Cnorm2_pos w Hw) as Hn.
  unfold Cdiv. Ceq; field; lra.
Qed.

Lemma Cmul_integral (z w : C) : Cmul z w = C0 -> z <> C0 -> w = C0.
Proof.
  intros Hzw Hz. pose proof (Cnorm2_pos z Hz) as Hn.
  destruct z as [p q], w as [s t]. cbn [re im] in Hn.
  unfold Cmul in Hzw. cbn [re im] in Hzw. injection Hzw as H1 H2.
  assert (Hs : (p ^ 2 + q ^ 2) * s = 0).
  { replace ((p ^ 2 + q ^ 2) * s) with (p * (p * s - q * t) + q * (p * t + q * s)) by ring.
    rewrite H1, H2. ring. }
  assert (Ht : (p ^ 2 + q ^ 2) * t = 0).
  { replace ((p ^ 2 + q ^ 2) * t) with (p * (p * t + q * s) - q * (p * s - q * t)) by ring.
    rewrite H1, H2. ring. }
  apply Rmult_integral in Hs. apply Rmult_integral in Ht.
  destruct Hs as [Hs|Hs]; [lra|]. destruct Ht as [Ht|Ht]; [lra|].
  subst. reflexivity.
Qed.

Lemma Cconj_div (z w : C) : Cconj (Cdiv z w) = Cdiv (Cconj z) (Cconj w).
Proof.
  unfold Cdiv, Cconj. cbn [re im].
  replace ((- im w) ^ 2) with (im w ^ 2) by ring.
  apply C_eq; cbn [re im]; unfold Rdiv; ring.
Qed.

Lemma Cconj_mul (z w : C) : Cconj (Cmul z w) = Cmul (Cconj z) (Cconj w).
Proof. Ceq. Qed.

Lemma Cconj_add (z w : C) : Cconj (Cadd z w) = Cadd (Cconj z) (Cconj w).
Proof. Ceq. Qed.

(** ** Sums *)

Lemma Csum_app (l l' : list C) : Csum (l ++ l') = Cadd (Csum l) (Csum l').
Proof.
  induction l as [|z l IH]; cbn [app Csum fold_right].
  - now rewrite Cadd_0_l.
  - fold (Csum (l ++ l')). fold (Csum l). rewrite IH. apply Cadd_assoc.
Qed.

Lemma Csum_map_add {A : Type} (f f' : A -> C) (l : list A) :
  Csum (map (fun v => Cadd (f v) (f' v)) l) = Cadd (Csum (map f l)) (Csum (map f' l)).
Proof.
  induction l as [|v l IH]; cbn [map Csum fold_right].
  - now rewrite Cadd_0_l.
  - fold (Csum (map (fun v => Cadd (f v) (f' v)) l)).
    fold (Csum (map f l)). fold (Csum (map f' l)). rewrite IH. Ceq.
Qed.

Lemma Csum_map_mul {A : Type} (z : C) (f : A -> C) (l : list A) :
  Csum (map (fun v => Cmul z (f v)) l) = Cmul z (Csum (map f l)).
Proof.
  induction l as [|v l IH]; cbn [map Csum fold_right].
  - now rewrite Cmul_0_r.
  - fold (Csum (map (fun v => Cmul z (f v)) l)). fold (Csum (map f l)).
    rewrite IH. now rewrite Cmul_add_distr_l.
Qed.

Lemma Csum_map_zero {A : Type} (f : A -> C) (l : list A) :
  (forall v, In v l -> f v = C0) -> Csum (map f l) = C0.
Proof.
  induction l as [|v l IH]; intros Hz; cbn [map Csum fold_right]; [reflexivity|].
  fold (Csum (map f l)). rewrite IH by (intros w Hw; apply Hz; now right).
  rewrite Hz by now left. apply Cadd_0_l.
Qed.

Lemma Csum_map_ext {A : Type} (f f' : A -> C) (l : list A) :
  (forall v, In v l -> f v = f' v) -> Csum (map f l) = Csum (map f' l).
Proof.
  intros Hext. f_equal. now apply map_ext_in.
Qed.

Lemma Csum_exchange {A B : Type} (F : A -> B -> C) (la : list A) (lb : list B) :
  Csum (map (fun v => Csum (map (fun w => F v w) lb)) la)
  = Csum (map (fun w => Csum (map (fun v => F v w) la)) lb).
Proof.
  induction la as [|v la IH]; cbn [map Csum fold_right].
  - symmetry. now apply Csum_map_zero.
  - fold (Csum (map (fun v => Csum (map (fun w => F v w) lb)) la)).
    rewrite IH. rewrite <- Csum_map_add. reflexivity.
Qed.

Lemma Csum_conj (l : list C) : Cconj (Csum l) = Csum (map Cconj l).
Proof.
  induction l as [|z l IH]; cbn [map Csum fold_right].
  - Ceq.
  - fold (Csum l). fold (Csum (map Cconj l)). now rewrite Cconj_add, IH.
Qed.

Lemma Rsum_re (l : list C) : Rsum (map re l) = re (Csum l).
Proof.
  induction l as [|z l IH]; cbn [map Rsum Csum fold_right re C0]; [reflexivity|].
  fold (Rsum (map re l)). fold (Csum l). rewrite IH. reflexivity.
Qed.

(** ** Arrays: slices and elementwise operations *)

Lemma slice_bound_nonneg (len i : Z) :
  (0 <= i)%Z -> slice_bound len i = Z.min i len.
Proof.
  intros Hi. unfold slice_bound.
  destruct (Z.ltb_spec i 0); [lia | reflexivity].
Qed.

Lemma py_slice_tail {A : Type} (l : list A) :
  (1 <= length l)%nat ->
  py_slice l 1 (Z.of_nat (length l)) = skipn 1 l.
Proof.
  intros Hl. unfold py_slice.
  rewrite !slice_bound_nonneg by lia.
  rewrite Z.min_id, Z.min_l by lia.
  change (Z.to_nat 1) with 1%nat.
  apply firstn_all2. rewrite length_skipn. lia.
Qed.

Lemma skipn1_map_seq {A : Type} (f : nat -> A) (len : nat) :
  skipn 1 (map f (seq 0 len)) = map f (seq 1 (len - 1)).
Proof.
  destruct len as [|len]; [reflexivity|].
  simpl. rewrite Nat.sub_0_r. reflexivity.
Qed.

Lemma combine_map_seq {A B : Type} (f : nat -> A) (f' : nat -> B) (l : list nat) :
  combine (map f l) (map f' l) = map (fun j => (f j, f' j)) l.
Proof.
  induction l as [|j l IH]; simpl; [reflexivity | now rewrite IH].
Qed.

Lemma broadcast2_same {A B D : Type} (f : A -> B -> D) (xs : list A) (ys : list B) :
  length xs = length ys ->
  broadcast2 f xs ys = Ok (map (fun p => f (fst p) (snd p)) (combine xs ys)).
Proof.
  intros Hlen. unfold broadcast2. rewrite Hlen, Nat.eqb_refl. reflexivity.
Qed.

Lemma broadcast2_map_seq {A B D : Type} (f : A -> B -> D)
    (f1 : nat -> A) (f2 : nat -> B) (l : list nat) :
  broadcast2 f (map f1 l) (map f2 l) = Ok (map (fun j => f (f1 j) (f2 j)) l).
Proof.
  rewrite broadcast2_same by (now rewrite !length_map).
  rewrite combine_map_seq, map_map. reflexivity.
Qed.

Lemma slice_assign_tail {A : Type} (l v : list A) :
  (1 <= length l)%nat -> length v = (length l - 1)%nat ->
  slice_assign l 1 (Z.of_nat (length l)) v = Ok (firstn 1 l ++ v).
Proof.
  intros Hl Hv. unfold slice_assign.
  rewrite !slice_bound_nonneg by lia.
  rewrite Z.min_id, Z.min_l by lia.
  change (Z.to_nat 1) with 1%nat.
  replace (Z.to_nat (Z.of_nat (length l) - 1)) with (length l - 1)%nat by lia.
  rewrite Hv, Nat.eqb_refl.
  rewrite skipn_all2 by lia. now rewrite app_nil_r.
Qed.

Lemma nth_error_map_seq {A : Type} (f : nat -> A) (s len j : nat) :
  (j < len)%nat -> nth_error (map f (seq s len)) j = Some (f (s + j)%nat).
Proof.
  intros Hj. rewrite nth_error_map, nth_error_nth' with (d := 0%nat) by (now rewrite length_seq).
  rewrite seq_nth by lia. reflexivity.
Qed.

Lemma seq_nonempty (len : nat) {A : Type} (f : nat -> A) :
  (0 < len)%nat -> map f (seq 0 len) <> [].
Proof. destruct len; [lia | discriminate]. Qed.

Lemma nth_map_seq {A : Type} (f : nat -> A) (len j : nat) (d : A) :
  (j < len)%nat -> nth j (map f (seq 0 len)) d = f j.
Proof.
  intros Hj. rewrite nth_indep with (d' := f 0%nat) by (now rewrite length_map, length_seq).
  rewrite map_nth, seq_nth by lia. reflexivity.
Qed.

(** ** The inverse transform *)

Lemma cis_add (s t : R) : cis (s + t) = Cmul (cis s) (cis t).
Proof.
  unfold cis, Cmul. cbn [re im]. rewrite cos_plus, sin_plus.
  apply C_eq; cbn [re im]; ring.
Qed.

Lemma cis_0 : cis 0 = RtoC 1.
Proof. unfold cis, RtoC. now rewrite cos_0, sin_0. Qed.

Lemma cis_turns (i : nat) : cis (INR i * (2 * PI)) = RtoC 1.
Proof.
  unfold cis, RtoC.
  replace (INR i * (2 * PI)) with (0 + 2 * INR i * PI) by ring.
  now rewrite cos_period, sin_period, cos_0, sin_0.
Qed.

Lemma Csum_seq_S (f : nat -> C) (len : nat) :
  Csum (map f (seq 0 (S len))) = Cadd (Csum (map f (seq 0 len))) (f len).
Proof.
  rewrite seq_S, map_app, Csum_app. cbn [Nat.add map Csum fold_right].
  now rewrite Cadd_0_r.
Qed.

(** Telescoping of a geometric sum. *)
Lemma geometric_sum (t : R) (len : nat) :
  Cmul (Csub (cis t) (RtoC 1)) (Csum (map (fun j => cis (INR j * t)) (seq 0 len)))
  = Csub (cis (INR len * t)) (RtoC 1).
Proof.
  induction len as [|len IH].
  - cbn [seq map Csum fold_right INR]. rewrite Rmult_0_l, cis_0. Ceq.
  - rewrite Csum_seq_S, Cmul_add_distr_l, IH.
    rewrite S_INR. replace ((INR len + 1) * t) with (t + INR len * t) by ring.
    rewrite cis_add. Ceq.
Qed.

Lemma cos_lt_1 (t : R) : 0 < t < 2 * PI -> cos t < 1.
Proof.
  intros [Hlo Hhi].
  replace t with (2 * (t / 2)) by field. rewrite cos_2a_sin.
  assert (Hs : 0 < sin (t / 2)) by (apply sin_gt_0; lra).
  nra.
Qed.

(** The roots of unity of order [len] other than 1 sum to zero. *)
Lemma roots_of_unity_sum (len i : nat) :
  (0 < i < len)%nat ->
  Csum (map (fun j => cis (INR j * (2 * PI * INR i / INR len))) (seq 0 len)) = C0.
Proof.
  intros [Hi0 Hi1].
  assert (Hlen : 0 < INR len) by (apply lt_0_INR; lia).
  assert (Hi : 0 < INR i < INR len) by (split; [apply lt_0_INR | apply lt_INR]; lia).
  pose proof PI_RGT_0 as Hpi.
  set (t := 2 * PI * INR i / INR len).
  assert (Ht : 0 < t < 2 * PI).
  { unfold t. split.
    - apply Rdiv_lt_0_compat; nra.
    - apply Rmult_lt_reg_r with (INR len); [assumption|].
      replace (2 * PI * INR i / INR len * INR len) with (2 * PI * INR i) by (field; lra).
      nra. }
  pose proof (geometric_sum t len) as Hg.
  replace (INR len * t) with (INR i * (2 * PI)) in Hg by (unfold t; field; lra).
  rewrite cis_turns in Hg.
  replace (Csub (RtoC 1) (RtoC 1)) with C0 in Hg by Ceq.
  apply Cmul_integral in Hg; [exact Hg|].
  intros Hz. apply (f_equal re) in Hz. cbn [re Csub cis RtoC C0] in Hz.
  pose proof (cos_lt_1 t Ht). lra.
Qed.

Lemma Csum_const_one (len : nat) :
  Csum (map (fun _ : nat => RtoC 1) (seq 0 len)) = RtoC (INR len).
Proof.
  induction len as [|len IH].
  - reflexivity.
  - rewrite Csum_seq_S, IH, S_INR. Ceq.
Qed.

(** The entries of an inverse transform add up to the coefficient of index
    0 of its argument. *)
Lemma idft_sum (v : list C) : v <> [] -> Csum (idft v) = nth 0 v C0.
Proof.
  intros Hv. unfold idft, dft_coeff.
  remember (length v) as len eqn:El.
  assert (Hlen : (0 < len)%nat) by (subst len; destruct v; [now elim Hv | simpl; lia]).
  assert (HN : INR len <> 0) by (apply not_0_INR; lia).
  set (G := fun i : nat =>
              Csum (map (fun j => cis (INR j * (2 * PI * INR i / INR len))) (seq 0 len))).
  assert (HG0 : G 0%nat = RtoC (INR len)).
  { unfold G. rewrite Csum_map_ext with (f' := fun _ => RtoC 1).
    - apply Csum_const_one.
    - intros j _. cbn [INR].
      replace (INR j * (2 * PI * 0 / INR len)) with 0 by (field; assumption).
      apply cis_0. }
  assert (HGi : forall i : nat, (0 < i < len)%nat -> G i = C0).
  { intros i Hi. unfold G. now apply roots_of_unity_sum. }
  rewrite Csum_map_mul, Csum_exchange.
  rewrite Csum_map_ext with (f' := fun i => Cmul (nth i v C0) (G i)).
  2:{ intros i _. unfold G. rewrite <- Csum_map_mul. apply Csum_map_ext. intros j _.
      do 2 f_equal. field. assumption. }
  clearbody G. destruct len as [|k]; [lia|].
  cbn [seq map Csum fold_right].
  fold (Csum (map (fun i => Cmul (nth i v C0) (G i)) (seq 1 k))).
  rewrite Csum_map_zero.
  - rewrite HG0, Cadd_0_r.
    apply C_eq; cbn [re im Cmul RtoC]; field; assumption.
  - intros i Hi. apply in_seq in Hi. rewrite HGi by lia. apply Cmul_0_r.
Qed.

Lemma idft_zero (v : list C) :
  (forall z : C, In z v -> z = C0) -> idft v = map (fun _ => C0) (seq 0 (length v)).
Proof.
  intros Hz. unfold idft. apply map_ext. intros j.
  unfold dft_coeff. rewrite Csum_map_zero; [apply Cmul_0_r|].
  intros i _.
  destruct (Nat.lt_ge_cases i (length v)) as [Hi|Hi].
  - rewrite (Hz (nth i v C0)) by (now apply nth_In). apply Cmul_0_l.
  - rewrite nth_overflow by assumption. apply Cmul_0_l.
Qed.

(** ** Hermitian symmetry of the transform of a real field *)

Lemma cis_minus_turns (t : R) (i : nat) : cis (t - INR i * (2 * PI)) = cis t.
Proof.
  replace t with ((t - INR i * (2 * PI)) + INR i * (2 * PI)) at 2 by ring.
  rewrite cis_add, cis_turns. Ceq.
Qed.

Lemma cis_neg (t : R) : cis (- t) = Cconj (cis t).
Proof. unfold cis, Cconj. cbn [re im]. now rewrite cos_neg, sin_neg. Qed.

Lemma nth_map_RtoC (hr : list R) (i : nat) :
  nth i (map RtoC hr) C0 = RtoC (nth i hr 0).
Proof. change C0 with (RtoC 0). apply map_nth. Qed.

(** The transform of a real field is Hermitian-symmetric. *)
Lemma dft_real_hermitian (hr : list R) (j : nat) :
  (1 <= j <= length hr - 1)%nat ->
  dft_coeff (-1) (map RtoC hr) (length hr - j)
  = Cconj (dft_coeff (-1) (map RtoC hr) j).
Proof.
  intros [Hj1 Hj2]. unfold dft_coeff. rewrite length_map, Csum_conj, map_map.
  assert (HN : INR (length hr) <> 0) by (apply not_0_INR; lia).
  apply Csum_map_ext. intros i _.
  rewrite !nth_map_RtoC, Cconj_mul.
  replace (-1 * (2 * PI * INR (length hr - j) * INR i / INR (length hr)))
    with (2 * PI * INR j * INR i / INR (length hr) - INR i * (2 * PI))
    by (rewrite minus_INR by lia; field; assumption).
  rewrite cis_minus_turns.
  replace (-1 * (2 * PI * INR j * INR i / INR (length hr)))
    with (- (2 * PI * INR j * INR i / INR (length hr))) by ring.
  rewrite cis_neg. apply C_eq; cbn [re im Cmul Cconj RtoC]; ring.
Qed.

Lemma shr_hermitian (hr : list R) (j : nat) :
  (1 <= j <= length hr - 1)%nat -> shr hr (length hr - j) = Cconj (shr hr j).
Proof.
  intros Hj. pose proof (dft_real_hermitian hr j Hj) as Hd.
  unfold shr. destruct j as [|i]; [lia|].
  destruct (length hr - S i)%nat as [|i'] eqn:Ed; [lia|]. exact Hd.
Qed.

Lemma Cconj_zero (z : C) : Cconj z = C0 -> z = C0.
Proof.
  destruct z as [p q]. unfold Cconj. cbn [re im]. intros Hz.
  injection Hz as Hp Hq. apply C_eq; cbn [re im C0]; lra.
Qed.

(** Two quotients of the same nonzero numerator agree only when the
    divisors do. *)
Lemma Cdiv_cancel (w d d' : C) :
  w <> C0 -> d <> C0 -> d' <> C0 -> Cdiv w d = Cdiv w d' -> d = d'.
Proof.
  intros Hw Hd Hd' Hq.
  pose proof (Cdiv_mul w d Hd) as H1. pose proof (Cdiv_mul w d' Hd') as H2.
  rewrite Hq in H1.
  assert (Hq0 : Cdiv w d' <> C0).
  { intros Hz. rewrite Hz, Cmul_0_l in H2. now apply Hw. }
  assert (Hdiff : Cmul (Cdiv w d') (Csub d d') = C0).
  { replace (Cmul (Cdiv w d') (Csub d d'))
      with (Csub (Cmul (Cdiv w d') d) (Cmul (Cdiv w d') d')) by Ceq.
    rewrite H1, H2. Ceq. }
  apply Cmul_integral in Hdiff; [|assumption].
  apply C_eq.
  - apply (f_equal re) in Hdiff. cbn [re Csub C0] in Hdiff. lra.
  - apply (f_equal im) in Hdiff. cbn [im Csub C0] in Hdiff. lra.
Qed.

(** *** Transforms of length two *)

Lemma cis_PI : cis PI = RtoC (-1).
Proof. unfold cis, RtoC. now rewrite cos_PI, sin_PI. Qed.

Lemma dft_coeff_pair (sgn : R) (z0 z1 : C) :
  sgn = 1 \/ sgn = -1 ->
  dft_coeff sgn [z0; z1] 0 = Cadd z0 z1 /\
  dft_coeff sgn [z0; z1] 1 = Csub z0 z1.
Proof.
  intros Hs. unfold dft_coeff. cbn [length seq map nth Csum fold_right INR].
  replace (sgn * (2 * PI * 0 * 0 / (1 + 1))) with 0 by field.
  replace (sgn * (2 * PI * 0 * 1 / (1 + 1))) with 0 by field.
  replace (sgn * (2 * PI * 1 * 0 / (1 + 1))) with 0 by field.
  rewrite cis_0. split; [Ceq|].
  destruct Hs as [-> | ->].
  - replace (1 * (2 * PI * 1 * 1 / (1 + 1))) with PI by field.
    rewrite cis_PI. Ceq.
  - replace (-1 * (2 * PI * 1 * 1 / (1 + 1))) with (- PI) by field.
    rewrite cis_neg, cis_PI. Ceq.
Qed.

Lemma shr_pair (v0 v1 : R) : shr [v0; v1] 1 = RtoC (v0 - v1).
Proof.
  unfold shr. cbn [map].
  destruct (dft_coeff_pair (-1) (RtoC v0) (RtoC v1)) as [_ H1]; [now right|].
  rewrite H1. Ceq.
Qed.

Lemma idft_pair (z0 z1 : C) :
  idft [z0; z1]
  = [Cmul (RtoC (/ 2)) (Cadd z0 z1); Cmul (RtoC (/ 2)) (Csub z0 z1)].
Proof.
  unfold idft. cbn [length seq map INR].
  destruct (dft_coeff_pair 1 z0 z1) as [H0 H1]; [now left|].
  rewrite H0, H1. replace (1 + 1) with 2 by ring. reflexivity.
Qed.

(** ** Parameter derivation *)

Lemma np_div_fin (v w : R) : w <> 0 -> np_div (Fin v) (Fin w) = Fin (v / w).
Proof.
  intros Hw. unfold np_div. destruct (Req_dec_T w 0); [contradiction | reflexivity].
Qed.

Lemma np_div_zero (v : R) : np_div (Fin v) (Fin 0) = NonFin.
Proof.
  unfold np_div. destruct (Req_dec_T 0 0) as [_|Hne]; [reflexivity | now elim Hne].
Qed.

Lemma r_ok (c : config) : tau c <> 0 -> r c = Ok (1 / tau c).
Proof.
  intros Ht. unfold r, py_div. destruct (Req_dec_T (tau c) 0); [contradiction | reflexivity].
Qed.

Lemma K2_unfold (c : config) : K2 c = map (K2_at c) (seq 0 (n c)).
Proof. reflexivity. Qed.

Lemma K2_length (c : config) : length (K2 c) = n c.
Proof. unfold K2, ns. now rewrite length_map, length_seq. Qed.

Lemma eps_unfold (c : config) :
  tau c <> 0 -> (0 < n c)%nat ->
  eps c = Ok (Fin 0 :: map (eps_at c) (seq 1 (n c - 1))).
Proof.
  intros Ht Hn. unfold eps. rewrite (r_ok c Ht). cbn [bind].
  assert (HK : py_slice (K2 c) 1 (Z.of_nat (n c)) = map (K2_at c) (seq 1 (n c - 1))).
  { replace (Z.of_nat (n c)) with (Z.of_nat (length (K2 c))) by (now rewrite K2_length).
    rewrite py_slice_tail by (rewrite K2_length; lia).
    rewrite K2_unfold. apply skipn1_map_seq. }
  assert (Hns : py_slice (ns c) 1 (Z.of_nat (n c)) = seq 1 (n c - 1)).
  { unfold ns.
    replace (Z.of_nat (n c)) with (Z.of_nat (length (seq 0 (n c)))) by (now rewrite length_seq).
    rewrite py_slice_tail by (rewrite length_seq; lia).
    rewrite <- (map_id (seq 0 (n c))), skipn1_map_seq. apply map_id. }
  rewrite HK, Hns.
  rewrite <- (map_id (seq 1 (n c - 1))) at 2. rewrite !map_map.
  rewrite broadcast2_map_seq. cbn [bind].
  unfold ns.
  set (eps0 := map (fun j => Fin (INR j * 0)) (seq 0 (n c))).
  assert (Hl : length eps0 = n c) by (unfold eps0; now rewrite length_map, length_seq).
  replace (Z.of_nat (n c)) with (Z.of_nat (length eps0)) by (now rewrite Hl).
  rewrite slice_assign_tail.
  - unfold eps0. destruct (n c) as [|len]; [lia|]. simpl.
    rewrite Rmult_0_l. reflexivity.
  - lia.
  - rewrite length_map, length_seq. lia.
Qed.

Lemma eps_empty (c : config) : tau c <> 0 -> n c = 0%nat -> eps c = Ok [].
Proof.
  intros Ht Hn. unfold eps. rewrite (r_ok c Ht). unfold K2, ns. rewrite Hn.
  reflexivity.
Qed.

Lemma K2_nth (c : config) (j : nat) :
  (j < n c)%nat -> nth j (K2 c) NonFin = K2_at c j.
Proof.
  intros Hj. rewrite K2_unfold.
  rewrite nth_indep with (d' := K2_at c 0) by (now rewrite length_map, length_seq).
  rewrite map_nth, seq_nth by lia. reflexivity.
Qed.

(** The entry assigned to [eps[j]] is the quotient the data model names. *)
Lemma eps_at_formula (c : config) (j : nat) :
  tau c <> 0 ->
  eps_at c j =
  np_div (K2_at c j) (np_mul (np_mul (Fin (tau c)) (k_j c j)) (Fin (u c))).
Proof.
  intros Ht. unfold eps_at, K2_at, k_j, k.
  destruct (Req_dec_T (Lx c) 0) as [HL|HL].
  - rewrite HL, !np_div_zero. reflexivity.
  - rewrite !np_div_fin by assumption. cbn [np_mul np_map2 np_pow2 np_map np_add].
    unfold np_div.
    destruct (Req_dec_T (2 * PI / Lx c * INR j * u c) 0) as [Hz|Hz];
      destruct (Req_dec_T (tau c * (2 * PI * INR j / Lx c) * u c) 0) as [Hz'|Hz'].
    + reflexivity.
    + exfalso. apply Hz'.
      replace (tau c * (2 * PI * INR j / Lx c) * u c)
        with (tau c * (2 * PI / Lx c * INR j * u c)) by (field; assumption).
      rewrite Hz. ring.
    + exfalso. apply Hz.
      replace (2 * PI / Lx c * INR j * u c)
        with (tau c * (2 * PI * INR j / Lx c) * u c / tau c) by (field; auto).
      rewrite Hz'. field. assumption.
    + f_equal. field.
      assert (Hne : Lx c <> 0 /\ tau c <> 0 /\ PI * INR j * u c <> 0).
      { repeat split; auto. intro Habs. apply Hz.
        replace (2 * PI / Lx c * INR j * u c) with (2 * (PI * INR j * u c) / Lx c)
          by (field; assumption).
        rewrite Habs. field. assumption. }
      destruct Hne as (H1 & H2 & H3).
      repeat split; auto.
      * intro Hu. apply H3. rewrite Hu. ring.
      * intro Hu. apply H3. rewrite Hu. ring.
      * intro Hu. apply H3. rewrite Hu. ring.
Qed.

(** ** The damping array *)

(** C3: [eps[0] = 0], and for every index [1 <= j <= n-1] the entry
    [eps[j]] is [K2[j] / (tau * k_j * u)] with [k_j = 2*pi*j/Lx], given
    [tau > 0] and [u <> 0].  Where the circumference is not zero this is the
    real number [(k_j^2 + m^2) / (tau * k_j * u)]. *)
Theorem C3_damping_array (c : config) :
  0 < tau c -> u c <> 0 -> (0 < n c)%nat ->
  exists e : list (np R),
    eps c = Ok e /\ length e = n c /\
    nth_error e 0 = Some (Fin 0) /\
    (forall j : nat, (1 <= j <= n c - 1)%nat ->
       nth_error e j =
       Some (np_div (nth j (K2 c) NonFin)
                    (np_mul (np_mul (Fin (tau c)) (k_j c j)) (Fin (u c))))) /\
    (forall j : nat, (1 <= j <= n c - 1)%nat -> Lx c <> 0 ->
       k_j c j = Fin (2 * PI * INR j / Lx c) /\
       nth j (K2 c) NonFin = Fin ((2 * PI * INR j / Lx c) ^ 2 + m c ^ 2) /\
       nth_error e j =
       Some (Fin (((2 * PI * INR j / Lx c) ^ 2 + m c ^ 2)
                  / (tau c * (2 * PI * INR j / Lx c) * u c)))).
Proof.
  intros Htau Hu Hn.
  assert (Ht : tau c <> 0) by lra.
  assert (Hnp : forall j : nat, (1 <= j <= n c - 1)%nat ->
            nth_error (Fin 0 :: map (eps_at c) (seq 1 (n c - 1))) j =
            Some (np_div (nth j (K2 c) NonFin)
                         (np_mul (np_mul (Fin (tau c)) (k_j c j)) (Fin (u c))))).
  { intros j [Hj1 Hj2].
    destruct j as [|i]; [lia|]. cbn [nth_error].
    rewrite nth_error_map_seq by lia.
    rewrite K2_nth by lia.
    f_equal. now apply eps_at_formula. }
  exists (Fin 0 :: map (eps_at c) (seq 1 (n c - 1))).
  split; [now apply eps_unfold|].
  split; [cbn [length]; rewrite length_map, length_seq; lia|].
  split; [reflexivity|].
  split; [exact Hnp|].
  intros j Hj HL.
  assert (Hj' : 1 <= INR j) by (change 1 with (INR 1); apply le_INR; lia).
  pose proof PI_RGT_0 as Hpi.
  assert (Hkj : k_j c j = Fin (2 * PI * INR j / Lx c))
    by (unfold k_j; now apply np_div_fin).
  assert (HK : nth j (K2 c) NonFin = Fin ((2 * PI * INR j / Lx c) ^ 2 + m c ^ 2)).
  { rewrite K2_nth by lia. unfold K2_at, k. rewrite np_div_fin by assumption.
    cbn [np_mul np_map2 np_pow2 np_map np_add]. f_equal. field. assumption. }
  split; [exact Hkj|]. split; [exact HK|].
  rewrite (Hnp j Hj), HK, Hkj. cbn [np_mul np_map2]. f_equal.
  apply np_div_fin.
  assert (Hk0 : 2 * PI * INR j / Lx c <> 0).
  { unfold Rdiv. apply Rmult_integral_contrapositive_currified.
    - apply Rgt_not_eq. nra.
    - now apply Rinv_neq_0_compat. }
  apply Rmult_integral_contrapositive_currified;
    [apply Rmult_integral_contrapositive_currified|]; assumption.
Qed.

Lemma C3_damping_array_witness :
  exists e : list (np R),
    eps notebook = Ok e /\ length e = n notebook /\
    nth_error e 0 = Some (Fin 0) /\
    (forall j : nat, (1 <= j <= n notebook - 1)%nat ->
       nth_error e j =
       Some (np_div (nth j (K2 notebook) NonFin)
                    (np_mul (np_mul (Fin (tau notebook)) (k_j notebook j))
                            (Fin (u notebook))))) /\
    (forall j : nat, (1 <= j <= n notebook - 1)%nat -> Lx notebook <> 0 ->
       k_j notebook j = Fin (2 * PI * INR j / Lx notebook) /\
       nth j (K2 notebook) NonFin
       = Fin ((2 * PI * INR j / Lx notebook) ^ 2 + m notebook ^ 2) /\
       nth_error e j =
       Some (Fin (((2 * PI * INR j / Lx notebook) ^ 2 + m notebook ^ 2)
                  / (tau notebook * (2 * PI * INR j / Lx notebook) * u notebook)))).
Proof.
  apply (C3_damping_array notebook); simpl; [lra | lra | lia].
Defined.

(** ** Zero zonal wind *)

Lemma eps_at_zero_wind (c : config) (j : nat) : u c = 0 -> eps_at c j = NonFin.
Proof.
  intros Hu. unfold eps_at. rewrite Hu.
  destruct (np_mul (Fin (1 / tau c)) (K2_at c j)) as [v|]; [|reflexivity].
  destruct (np_mul (k c) (Fin (INR j))) as [w|]; [|reflexivity].
  cbn [np_mul np_map2]. rewrite Rmult_0_r. apply np_div_zero.
Qed.

(** C7, as stated, fails: with [u = 0] the cell raises nothing; it returns,
    and [Ks2] is an infinity or a NaN. *)
Lemma C7_zero_wind_counterexample :
  u calm = 0 /\
  (forall e : exn, model_parameters calm <> Raise e) /\
  (exists p : parameters, model_parameters calm = Ok p /\ p_Ks2 p = NonFin).
Proof.
  assert (Ht : tau calm <> 0) by (simpl; lra).
  assert (Hn : (0 < n calm)%nat) by (simpl; lia).
  assert (HM : model_parameters calm =
               Ok (mkParameters (k calm) (Ks2 calm) (K2 calm) (1 / tau calm)
                     (Fin 0 :: map (eps_at calm) (seq 1 (n calm - 1))))).
  { unfold model_parameters. rewrite (r_ok calm Ht), (eps_unfold calm Ht Hn).
    reflexivity. }
  split; [reflexivity|]. split.
  - intros e He. rewrite HM in He. discriminate He.
  - eexists. split; [exact HM|]. cbn [p_Ks2]. unfold Ks2.
    change (u calm) with 0. apply np_div_zero.
Qed.

(** C7, amended: with [u = 0] and a damping time other than zero the cell
    raises no exception; [Ks2] and every [eps[j]], [1 <= j <= n-1], are
    non-finite, and [eps[0]] is [0]. *)
Theorem C7_zero_wind_no_error (c : config) :
  u c = 0 -> tau c <> 0 ->
  exists p : parameters,
    model_parameters c = Ok p /\
    p_Ks2 p = NonFin /\
    length (p_eps p) = n c /\
    ((0 < n c)%nat -> nth_error (p_eps p) 0 = Some (Fin 0)) /\
    forall j : nat, (1 <= j <= n c - 1)%nat ->
      nth_error (p_eps p) j = Some NonFin.
Proof.
  intros Hu Ht.
  assert (HKs : Ks2 c = NonFin) by (unfold Ks2; rewrite Hu; apply np_div_zero).
  destruct (Nat.eq_dec (n c) 0) as [Hn|Hn].
  - exists (mkParameters (k c) (Ks2 c) (K2 c) (1 / tau c) []).
    unfold model_parameters. rewrite (r_ok c Ht), (eps_empty c Ht Hn). cbn [bind].
    cbn [p_Ks2 p_eps length].
    repeat split; auto; intros; lia.
  - assert (Hpos : (0 < n c)%nat) by lia.
    exists (mkParameters (k c) (Ks2 c) (K2 c) (1 / tau c)
              (Fin 0 :: map (eps_at c) (seq 1 (n c - 1)))).
    unfold model_parameters. rewrite (r_ok c Ht), (eps_unfold c Ht Hpos). cbn [bind].
    cbn [p_Ks2 p_eps].
    split; [reflexivity|]. split; [assumption|].
    split; [cbn [length]; rewrite length_map, length_seq; lia|].
    split; [reflexivity|].
    intros j [Hj1 Hj2]. destruct j as [|i]; [lia|]. cbn [nth_error].
    rewrite nth_error_map_seq by lia. f_equal. now apply eps_at_zero_wind.
Qed.

Lemma C7_zero_wind_no_error_witness :
  exists p : parameters,
    model_parameters calm = Ok p /\
    p_Ks2 p = NonFin /\
    length (p_eps p) = n calm /\
    ((0 < n calm)%nat -> nth_error (p_eps p) 0 = Some (Fin 0)) /\
    forall j : nat, (1 <= j <= n calm - 1)%nat ->
      nth_error (p_eps p) j = Some NonFin.
Proof.
  apply (C7_zero_wind_no_error calm); simpl; [reflexivity | lra].
Defined.

(** ** Latitude *)

Lemma cos_latr_pos (c : config) : -90 < latd c < 90 -> 0 < cos (latr c).
Proof.
  intros [Hlo Hhi]. pose proof PI_RGT_0 as Hpi.
  apply cos_gt_0; unfold latr, deg2rad; nra.
Qed.

Lemma Lx_pos (c : config) : -90 < latd c < 90 -> 0 < Lx c.
Proof.
  intros Hlat. pose proof (cos_latr_pos c Hlat). pose proof PI_RGT_0.
  unfold Lx, a. nra.
Qed.

(** ** The grid *)

Lemma ceil_IZR (z : Z) : ceil (IZR z) = z.
Proof.
  unfold ceil.
  assert (Hup : (1 - z)%Z = up (- IZR z)).
  { apply tech_up; rewrite minus_IZR; simpl; lra. }
  rewrite <- Hup. lia.
Qed.

Lemma ceil_INR (j : nat) : Z.to_nat (ceil (INR j)) = j.
Proof. rewrite INR_IZR_INZ, ceil_IZR. apply Nat2Z.id. Qed.

(** In exact arithmetic the quotient [(Lx/2 - -Lx/2)/dx] is [n] and the
    grid is the [n] coordinates [-Lx/2 + i*Lx/n]. *)
Lemma grid_unfold (L : R) (nn : nat) :
  0 < L -> (0 < nn)%nat ->
  grid L nn = Ok (map (fun i => - L / 2 + INR i * (L / INR nn)) (seq 0 nn)).
Proof.
  intros HL Hn.
  assert (Hnn : 0 < INR nn) by (apply lt_0_INR; lia).
  unfold grid, spacing, arange.
  rewrite np_div_fin by lra.
  rewrite np_div_fin by (apply Rgt_not_eq; apply Rdiv_lt_0_compat; lra).
  replace ((L / 2 - - L / 2) / (L / INR nn)) with (INR nn) by (field; lra).
  rewrite ceil_INR. reflexivity.
Qed.

(** C6: in binary64 the grid can hold [n + 1] coordinates.  With the
    circumference of latitude 45 and [n = 178] the quotient
    [(Lx/2. - -Lx/2.)/dx] rounds to [178.00000000000003]: the grid, which
    starts at [-Lx/2], has 179 coordinates.  With the circumference of
    latitude 33 and the notebook's [n = 480] it has 481, and they do not
    all lie in [[-Lx/2, Lx/2)]: the last one is not below [+Lx/2].  Both
    [n] are positive and even, both [Lx] positive. *)
Theorem C6_grid_extra_point :
  (Nat.even 178 = true /\ positive Lx45 = true /\
   ceil64 (quotient64 Lx45 178) = Some 179%Z /\
   exists xs : list PrimFloat.float,
     grid64 Lx45 178 = Ok xs /\ length xs = 179%nat /\
     hd_error xs = Some (lower Lx45)) /\
  (Nat.even 480 = true /\ positive Lx33 = true /\
   ceil64 (quotient64 Lx33 480) = Some 481%Z /\
   exists xs : list PrimFloat.float,
     grid64 Lx33 480 = Ok xs /\ length xs = 481%nat /\
     hd_error xs = Some (lower Lx33) /\
     within (lower Lx33) (upper Lx33) xs = false /\
     PrimFloat.leb (upper Lx33) (last xs (lower Lx33)) = true).
Proof.
  split.
  - split; [reflexivity|]. split; [reflexivity|]. split; [reflexivity|].
    eexists. split; [vm_compute; reflexivity|].
    split; reflexivity.
  - split; [reflexivity|]. split; [reflexivity|]. split; [reflexivity|].
    eexists. split; [vm_compute; reflexivity|].
    repeat split; vm_compute; reflexivity.
Qed.

(** ** Gaussian topography *)

Lemma PI_bounds : 313 / 100 < PI < 315 / 100.
Proof.
  pose proof (PI_2_3_7_ineq 0) as [Hlo _].
  pose proof (PI_2_3_7_ineq 1) as [_ Hhi].
  unfold sum_f_R0, tg_alt, PI_2_3_7_tg, Ratan_seq in Hlo, Hhi.
  simpl in Hlo, Hhi. lra.
Qed.

Lemma sqrt_PI_bounds : 176 / 100 < sqrt PI < 179 / 100.
Proof.
  pose proof PI_bounds as [Hlo Hhi].
  assert (Hs : sqrt PI * sqrt PI = PI) by (apply sqrt_sqrt; lra).
  assert (H0 : 0 <= sqrt PI) by apply sqrt_pos.
  split; nra.
Qed.

Lemma gaussian_height_notebook (xi : R) :
  4000 * 1000000 * exp (- xi ^ 2 / 1000000 ^ 2) / (sqrt PI * 1000000)
  = gaussian_height 4000 1000000 xi.
Proof.
  unfold gaussian_height.
  rewrite sqrt_mult by (pose proof PI_bounds; lra).
  rewrite sqrt_pow2 by lra.
  replace (- (xi / 1000000) ^ 2) with (- xi ^ 2 / 1000000 ^ 2) by (field; lra).
  reflexivity.
Qed.

Lemma notebook_grid_ok : x notebook = Ok notebook_grid.
Proof.
  unfold x, notebook_grid. apply grid_unfold.
  - apply Lx_pos. cbn [latd notebook]. lra.
  - cbn [n notebook]. lia.
Qed.

Lemma notebook_grid_centre : nth 240 notebook_grid 1 = 0.
Proof.
  unfold notebook_grid. cbn [n notebook].
  rewrite nth_indep with (d' := - Lx notebook / 2 + INR 0 * (Lx notebook / INR 480))
    by (rewrite length_map, length_seq; lia).
  rewrite (map_nth (fun i => - Lx notebook / 2 + INR i * (Lx notebook / INR 480))).
  rewrite seq_nth by lia. cbn [Nat.add].
  rewrite !INR_IZR_INZ. cbn [Z.of_nat Pos.of_succ_nat Pos.succ]. field.
Qed.

(** C8: the analytic Gaussian topography is
    [h(x) = h0*dx_h*exp(-(x/dx_h)^2)/sqrt(pi*dx_h^2)] with [h0 = 4000] and
    [dx_h = 1e6] at every coordinate; at [x = 0] it is
    [h0*dx_h/sqrt(pi*dx_h^2) = h0/sqrt(pi)], within 1% of 2256.8.  On the
    notebook's grid ([n = 480], latitude 45) the coordinate of index 240 is
    [0] and the height there is that peak. *)
Theorem C8_gaussian_topography :
  (forall xs : list R,
     gaussian_topography xs = map (gaussian_height 4000 1000000) xs) /\
  gaussian_topography [0] = [4000 / sqrt PI] /\
  gaussian_height 4000 1000000 0 = 4000 * 1000000 / sqrt (PI * 1000000 ^ 2) /\
  4000 * 1000000 / sqrt (PI * 1000000 ^ 2) = 4000 / sqrt PI /\
  Rabs (4000 / sqrt PI - 22568 / 10) <= 1 / 100 * (22568 / 10) /\
  x notebook = Ok notebook_grid /\
  nth 240 notebook_grid 1 = 0 /\
  nth 240 (gaussian_topography notebook_grid) 0 = 4000 / sqrt PI.
Proof.
  pose proof sqrt_PI_bounds as [Hlo Hhi].
  assert (Hsq : sqrt (PI * 1000000 ^ 2) = sqrt PI * 1000000).
  { rewrite sqrt_mult by (pose proof PI_bounds; lra). now rewrite sqrt_pow2 by lra. }
  assert (Hall : forall xs : list R,
             gaussian_topography xs = map (gaussian_height 4000 1000000) xs).
  { intros xs. unfold gaussian_topography. apply map_ext.
    intros xi. apply gaussian_height_notebook. }
  assert (Hpeak : gaussian_height 4000 1000000 0
                  = 4000 * 1000000 / sqrt (PI * 1000000 ^ 2)).
  { unfold gaussian_height.
    replace (- (0 / 1000000) ^ 2) with 0 by (field; lra).
    rewrite exp_0. now rewrite Rmult_1_r. }
  assert (Hsimp : 4000 * 1000000 / sqrt (PI * 1000000 ^ 2) = 4000 / sqrt PI).
  { rewrite Hsq. field. lra. }
  split; [exact Hall|].
  split; [rewrite Hall; cbn [map]; now rewrite Hpeak, Hsimp|].
  split; [exact Hpeak|].
  split; [exact Hsimp|].
  split.
  { assert (Hq : 4000 / sqrt PI * sqrt PI = 4000) by (field; lra).
    apply Rabs_le. split; nra. }
  split; [exact notebook_grid_ok|].
  split; [exact notebook_grid_centre|].
  rewrite Hall.
  rewrite nth_indep with (d' := gaussian_height 4000 1000000 1)
    by (unfold notebook_grid; rewrite !length_map, length_seq; cbn [n notebook]; lia).
  rewrite (map_nth (gaussian_height 4000 1000000)), notebook_grid_centre.
  now rewrite Hpeak, Hsimp.
Qed.

(** ** Real world topography *)

Lemma ridge_distances :
  map (fun l => Rabs (l - latd notebook)) (latitude ridge)
  = [5; 4; 3; 2; 1; 0; 1; 2; 3; 4; 5].
Proof.
  cbn [map latitude ridge latd notebook].
  repeat (apply f_equal2; [unfold Rabs; destruct (Rcase_abs _); lra|]).
  reflexivity.
Qed.

Lemma ridge_nearest :
  argmin (map (fun l => Rabs (l - latd notebook)) (latitude ridge)) = Ok 5%nat.
Proof.
  rewrite ridge_distances. cbn [argmin argmin_from].
  repeat (destruct (Rlt_dec _ _); try lra).
  reflexivity.
Qed.

(** The rows [iy-5:iy+5] selects: ten of them, from [iy-5] to [iy+4]. *)
Lemma band_rows {A : Type} (slab : list A) (iy : nat) :
  (5 <= iy)%nat -> (iy + 5 <= length slab)%nat ->
  py_slice slab (Z.of_nat iy - 5) (Z.of_nat iy + 5)
  = firstn 10 (skipn (iy - 5) slab).
Proof.
  intros Hlo Hhi. unfold py_slice.
  rewrite !slice_bound_nonneg by lia.
  rewrite !Z.min_l by lia.
  replace (Z.to_nat (Z.of_nat iy + 5 - (Z.of_nat iy - 5))) with 10%nat by lia.
  replace (Z.to_nat (Z.of_nat iy - 5)) with (iy - 5)%nat by lia.
  reflexivity.
Qed.

(** C9: on [ridge] the band the notebook averages is rows 0 to 9; the row
    five after the nearest one is left out, and the height is [0] where the
    band of five rows on either side gives [1]. *)
Theorem C9_band_leaves_out_last_row :
  world_topography ridge notebook = Ok [Fin 0] /\
  world_topography_symmetric ridge notebook = Ok [Fin 1].
Proof.
  unfold world_topography, world_topography_symmetric.
  rewrite ridge_nearest. cbn [bind srfgeo ridge].
  split.
  - rewrite band_rows by (cbn [length]; lia).
    cbn [Nat.sub skipn firstn hd length mean_axis0 seq map nth Rsum fold_right].
    rewrite np_div_fin by (simpl; lra).
    rewrite np_div_fin by (unfold g; lra).
    do 3 f_equal. unfold g. simpl. field.
  - unfold py_slice. cbn [length].
    rewrite !slice_bound_nonneg by lia.
    cbn [Z.of_nat Z.sub Z.add Z.min Z.to_nat firstn skipn hd length mean_axis0
         seq map nth Rsum fold_right].
    vm_compute Z.to_nat. cbn [firstn skipn hd length mean_axis0
         seq map nth Rsum fold_right].
    rewrite np_div_fin by (simpl; lra).
    rewrite np_div_fin by (unfold g; lra).
    do 3 f_equal. unfold g. simpl. field.
Qed.

(** ** The spectrum of a finite field *)

Lemma all_fin_map_Fin {A : Type} (l : list A) : all_fin (map Fin l) = Some l.
Proof.
  induction l as [|v l IH]; cbn [map all_fin]; [reflexivity|].
  now rewrite IH.
Qed.

Lemma all_fin_NonFin {A : Type} (l : list (np A)) : In NonFin l -> all_fin l = None.
Proof.
  induction l as [|v l IH]; intros Hin; [contradiction|].
  destruct v as [w|]; [|reflexivity].
  destruct Hin as [Hin|Hin]; [discriminate|].
  cbn [all_fin]. now rewrite IH.
Qed.

Lemma np_transform_fin (t : list C -> list C) (l : list C) :
  l <> [] -> np_transform t (map Fin l) = Ok (map Fin (t l)).
Proof.
  intros Hl. unfold np_transform. rewrite all_fin_map_Fin.
  destruct l; [now elim Hl | reflexivity].
Qed.

Lemma sh_unfold (hr : list R) :
  hr <> [] ->
  sh (map Fin hr) = Ok (map (fun j => Fin (shr hr j)) (seq 0 (length hr))).
Proof.
  intros Hh. unfold sh, fft.
  replace (map np_RtoC (map Fin hr)) with (map Fin (map RtoC hr))
    by (now rewrite !map_map).
  rewrite np_transform_fin by (destruct hr; [now elim Hh | discriminate]).
  cbn [bind]. unfold dft. rewrite length_map.
  destruct hr as [|v hr]; [now elim Hh|].
  cbn [length seq map]. unfold set_item. cbn [length Nat.ltb Nat.leb firstn skipn app].
  cbn [shr]. do 2 f_equal. rewrite map_map. apply map_ext_in.
  intros j Hj. apply in_seq in Hj. destruct j as [|i]; [lia | reflexivity].
Qed.

(** ** The arrays where the divisions are defined *)

Lemma kr_pos (c : config) : 0 < Lx c -> 0 < kr c.
Proof.
  intros HL. pose proof PI_RGT_0. unfold kr. apply Rdiv_lt_0_compat; lra.
Qed.

Lemma k_fin (c : config) : Lx c <> 0 -> k c = Fin (kr c).
Proof. intros HL. unfold k, kr. now apply np_div_fin. Qed.

Lemma Ks2_fin (c : config) : u c <> 0 -> Ks2 c = Fin (Ks2r c).
Proof. intros Hu. unfold Ks2, Ks2r. now apply np_div_fin. Qed.

Lemma K2_at_fin (c : config) (j : nat) : Lx c <> 0 -> K2_at c j = Fin (K2r c j).
Proof. intros HL. unfold K2_at. rewrite k_fin by assumption. reflexivity. Qed.

Lemma K2_fin (c : config) :
  Lx c <> 0 -> K2 c = map (fun j => Fin (K2r c j)) (seq 0 (n c)).
Proof.
  intros HL. rewrite K2_unfold. apply map_ext. intros j. now apply K2_at_fin.
Qed.

Lemma K2r_pos (c : config) (j : nat) : 0 < Lx c -> (1 <= j)%nat -> 0 < K2r c j.
Proof.
  intros HL Hj. pose proof (kr_pos c HL) as Hk.
  assert (Hj' : 1 <= INR j) by (change 1 with (INR 1); apply le_INR; lia).
  unfold K2r. assert (0 < kr c * INR j) by nra. nra.
Qed.

Lemma epsr_pos (c : config) (j : nat) :
  0 < Lx c -> 0 < u c -> 0 < tau c -> (1 <= j)%nat -> 0 < epsr c j.
Proof.
  intros HL Hu Ht Hj. pose proof (kr_pos c HL) as Hk.
  pose proof (K2r_pos c j HL Hj) as HK.
  assert (Hj' : 1 <= INR j) by (change 1 with (INR 1); apply le_INR; lia).
  destruct j as [|i]; [lia|]. unfold epsr.
  apply Rdiv_lt_0_compat.
  - apply Rmult_lt_0_compat; [apply Rdiv_lt_0_compat; lra | assumption].
  - apply Rmult_lt_0_compat; [nra | assumption].
Qed.

Lemma eps_at_fin (c : config) (j : nat) :
  0 < Lx c -> 0 < u c -> (1 <= j)%nat -> eps_at c j = Fin (epsr c j).
Proof.
  intros HL Hu Hj. pose proof (kr_pos c HL) as Hk.
  assert (Hj' : 1 <= INR j) by (change 1 with (INR 1); apply le_INR; lia).
  unfold eps_at. rewrite K2_at_fin, k_fin by lra.
  cbn [np_mul np_map2]. rewrite np_div_fin.
  - destruct j as [|i]; [lia | reflexivity].
  - apply Rgt_not_eq. apply Rmult_lt_0_compat; [nra | assumption].
Qed.

Lemma denomr_0 (c : config) : denomr c 0 = mkC (H * (m c ^ 2 - Ks2r c)) 0.
Proof.
  unfold denomr, K2r, epsr. cbn [INR]. apply C_eq; cbn [re im]; ring.
Qed.

Lemma spsi_entry_fin (c : config) (hr : list R) (j : nat) :
  denomr c j <> C0 ->
  np_cdiv (Fin (Cmul (RtoC (f0 c)) (shr hr j))) (Fin (denomr c j)) = Fin (spsir c hr j).
Proof.
  intros Hd. unfold np_cdiv. apply Cis_zero_false in Hd. now rewrite Hd.
Qed.

Lemma spsir_0 (c : config) (hr : list R) : spsir c hr 0 = C0.
Proof.
  unfold spsir. cbn [shr]. rewrite Cmul_0_r. apply Cdiv_0_l.
Qed.

(** ** A valid configuration *)

Section ValidConfiguration.

Variable c : config.
Hypothesis Hv : valid_config c.

Lemma valid_Lx_pos : 0 < Lx c.
Proof. destruct Hv as (Hlat & _). now apply Lx_pos. Qed.

Lemma valid_epsr_pos (j : nat) : (1 <= j)%nat -> 0 < epsr c j.
Proof.
  intros Hj. destruct Hv as (_ & Hu & Ht & _).
  apply epsr_pos; (assumption || apply valid_Lx_pos).
Qed.

Lemma eps_fin : eps c = Ok (map (fun j => Fin (epsr c j)) (seq 0 (n c))).
Proof.
  pose proof valid_Lx_pos as HL. destruct Hv as (_ & Hu & Ht & Hn).
  rewrite eps_unfold by (lra || assumption).
  destruct (n c) as [|len]; [lia|]. cbn [seq map epsr Nat.sub]. rewrite Nat.sub_0_r.
  do 2 f_equal. apply map_ext_in. intros j Hj. apply in_seq in Hj.
  apply eps_at_fin; (assumption || lia).
Qed.

Lemma denom_unfold : denom c = Ok (map (fun j => Fin (denomr c j)) (seq 0 (n c))).
Proof.
  pose proof valid_Lx_pos as HL. destruct Hv as (_ & Hu & _).
  unfold denom. rewrite eps_fin. cbn [bind].
  rewrite K2_fin, Ks2_fin by lra. rewrite !map_map.
  rewrite broadcast2_map_seq. cbn [bind]. rewrite map_map.
  f_equal. apply map_ext. intros j.
  cbn [np_sub np_map2 np_RtoC np_map np_cmul np_csub]. f_equal.
  unfold denomr. Ceq.
Qed.

Lemma denomr_nonzero (j : nat) : (1 <= j)%nat -> denomr c j <> C0.
Proof.
  intros Hj Hz. pose proof (valid_epsr_pos j Hj) as He.
  unfold denomr in Hz. injection Hz as _ Him. unfold H in Him. lra.
Qed.

(** *** A field of the length of the grid *)

Variable hr : list R.
Hypothesis Hlen : length hr = n c.

Lemma spsi_unfold :
  spsi c (map Fin hr)
  = Ok (map (fun j => np_cdiv (Fin (Cmul (RtoC (f0 c)) (shr hr j))) (Fin (denomr c j)))
            (seq 0 (n c))).
Proof.
  destruct Hv as (_ & _ & _ & Hn).
  unfold spsi. rewrite sh_unfold by (destruct hr; [simpl in Hlen; lia | discriminate]).
  rewrite denom_unfold. cbn [bind]. rewrite Hlen, map_map.
  rewrite broadcast2_map_seq. reflexivity.
Qed.

Lemma spsi_fin :
  m c ^ 2 <> Ks2r c ->
  spsi c (map Fin hr) = Ok (map Fin (map (spsir c hr) (seq 0 (n c)))).
Proof.
  intros Hres. rewrite spsi_unfold.
  rewrite map_map. f_equal. apply map_ext_in. intros j Hj.
  apply spsi_entry_fin. destruct j as [|i].
  - rewrite denomr_0. intros Hz. injection Hz as Hre. unfold H in Hre.
    apply Hres. lra.
  - apply denomr_nonzero. lia.
Qed.

(** At [m**2 = Ks2] the entry of index 0 is the quotient of [0j] by [0j]. *)
Lemma spsi_resonant :
  m c ^ 2 = Ks2r c ->
  exists sp : list (np C),
    spsi c (map Fin hr) = Ok sp /\ length sp = n c /\ nth_error sp 0 = Some NonFin.
Proof.
  intros Hres. destruct Hv as (_ & _ & _ & Hn).
  eexists. split; [apply spsi_unfold|].
  split; [now rewrite length_map, length_seq|].
  destruct (n c) as [|len]; [lia|]. cbn [seq map nth_error]. f_equal.
  rewrite denomr_0, Hres. unfold np_cdiv.
  replace (Cis_zero _) with true; [reflexivity|].
  symmetry. apply Cis_zero_true. apply C_eq; cbn [re im C0]; ring.
Qed.

End ValidConfiguration.

(** ** The response *)

Lemma psi_fin (c : config) (hr : list R) (sp : list C) :
  sp <> [] -> spsi c (map Fin hr) = Ok (map Fin sp) ->
  psi c (map Fin hr) = Ok (map (fun z => Fin (re z)) (idft sp)).
Proof.
  intros Hsp Hs. unfold psi, psi_complex, ifft. rewrite Hs. cbn [bind].
  rewrite np_transform_fin by assumption. cbn [bind].
  now rewrite map_map.
Qed.

Lemma psi_NonFin (c : config) (hr : list R) (sp : list (np C)) :
  In NonFin sp -> spsi c (map Fin hr) = Ok sp ->
  psi c (map Fin hr) = Ok (map (fun _ => NonFin) sp).
Proof.
  intros Hin Hs. unfold psi, psi_complex, ifft, np_transform. rewrite Hs. cbn [bind].
  rewrite (all_fin_NonFin sp Hin).
  destruct sp as [|v sp]; [contradiction|]. cbn [bind].
  now rewrite map_map.
Qed.

Lemma resonant_valid (lat : R) :
  -90 < lat < 90 ->
  valid_config (resonant_at lat) /\ m (resonant_at lat) ^ 2 = Ks2r (resonant_at lat).
Proof.
  intros Hlat.
  pose proof (cos_latr_pos (resonant_at lat) Hlat) as Hc.
  unfold latr in Hc. cbn [latd resonant_at] in Hc.
  pose proof PI_RGT_0 as Hpi.
  assert (Hu : 0 < 2 * omega * cos (deg2rad lat) / a).
  { unfold omega, a. apply Rdiv_lt_0_compat; [|lra].
    apply Rmult_lt_0_compat; [|assumption]. lra. }
  split.
  - unfold valid_config. cbn [latd u tau n resonant_at]. repeat split; try lra; lia.
  - unfold Ks2r, beta, latr. cbn [latd u m resonant_at]. field.
    repeat split; [unfold a; lra | lra | unfold omega; lra].
Qed.

(** C1, as stated, fails: at [u = beta], [m = 1] the coefficient of index 0
    does not stay zero, it is the NaN that [0j/0j] gives. *)
Lemma C1_dc_coefficient_counterexample :
  valid_config (resonant_at 45) /\
  length [1; 0] = n (resonant_at 45) /\
  exists sp : list (np C),
    spsi (resonant_at 45) (map Fin [1; 0]) = Ok sp /\
    nth_error sp 0 = Some NonFin /\
    nth_error sp 0 <> Some (Fin C0).
Proof.
  destruct (resonant_valid 45) as [Hv Hres]; [lra|].
  split; [exact Hv|]. split; [reflexivity|].
  destruct (spsi_resonant (resonant_at 45) Hv [1; 0] eq_refl Hres) as (sp & Hs & _ & H0).
  exists sp. split; [exact Hs|]. split; [exact H0|].
  rewrite H0. discriminate.
Qed.

(** C1, amended: for a valid configuration with [m**2 <> Ks2] and every
    field [h] of length [n], [sh] is the DFT of [h] with entry 0 set to 0,
    [spsi[j] = f0*sh[j]/(H*(K2[j] - Ks2 - 1j*eps[j]))] for every index
    [j < n], [spsi[0] = 0], and [psi] is the real part of the inverse DFT
    of [spsi]. *)
Theorem C1_spectral_response (c : config) (hr : list R) :
  valid_config c -> length hr = n c -> m c ^ 2 <> Ks2r c ->
  exists s sp : list C,
    sh (map Fin hr) = Ok (map Fin s) /\
    s = C0 :: tl (dft (map RtoC hr)) /\
    K2 c = map Fin (map (K2r c) (seq 0 (n c))) /\
    Ks2 c = Fin (Ks2r c) /\
    eps c = Ok (map Fin (map (epsr c) (seq 0 (n c)))) /\
    spsi c (map Fin hr) = Ok (map Fin sp) /\
    length sp = n c /\
    (forall j : nat, (j < n c)%nat ->
       nth j sp C0 =
       Cdiv (Cmul (RtoC (f0 c)) (nth j s C0))
            (Cmul (RtoC H)
               (Csub (RtoC (K2r c j - Ks2r c)) (Cmul Ci (RtoC (epsr c j)))))) /\
    nth 0 sp C0 = C0 /\
    psi c (map Fin hr) = Ok (map (fun z => Fin (re z)) (idft sp)).
Proof.
  intros Hv Hlen Hres. pose proof Hv as (Hlat & Hu & Ht & Hn).
  pose proof (Lx_pos c Hlat) as HL.
  assert (Hh : hr <> []) by (destruct hr; [simpl in Hlen; lia | discriminate]).
  exists (map (shr hr) (seq 0 (n c))), (map (spsir c hr) (seq 0 (n c))).
  split; [rewrite sh_unfold, Hlen, map_map by assumption; reflexivity|].
  split.
  { unfold dft. rewrite length_map, Hlen.
    destruct (n c) as [|len]; [lia|]. cbn [seq map tl shr]. f_equal.
    apply map_ext_in. intros j Hj. apply in_seq in Hj.
    destruct j as [|i]; [lia | reflexivity]. }
  split; [rewrite K2_fin, map_map by lra; reflexivity|].
  split; [apply Ks2_fin; lra|].
  split; [rewrite eps_fin, map_map by assumption; reflexivity|].
  split; [now apply spsi_fin|].
  split; [now rewrite length_map, length_seq|].
  split.
  { intros j Hj. rewrite !nth_map_seq by assumption. unfold spsir. f_equal.
    unfold denomr. Ceq. }
  split; [rewrite nth_map_seq by assumption; apply spsir_0|].
  apply psi_fin; [now apply seq_nonempty | now apply spsi_fin].
Qed.

(** *** The notebook's own configuration *)

Lemma sqrt2_bounds : 141 / 100 < sqrt 2 < 142 / 100.
Proof.
  assert (Hs : sqrt 2 * sqrt 2 = 2) by (apply sqrt_sqrt; lra).
  assert (H0 : 0 <= sqrt 2) by apply sqrt_pos.
  split; nra.
Qed.

Lemma notebook_latr : latr notebook = PI / 4.
Proof. unfold latr, deg2rad. cbn [latd notebook]. field. Qed.

Lemma notebook_valid : valid_config notebook.
Proof.
  unfold valid_config. cbn [latd u tau n notebook]. repeat split; try lra; lia.
Qed.

Lemma notebook_off_resonance : m notebook ^ 2 <> Ks2r notebook.
Proof.
  pose proof PI_bounds as [Hlo Hhi]. pose proof sqrt2_bounds as [Hslo Hshi].
  unfold Ks2r, beta. rewrite notebook_latr, cos_PI4.
  cbn [m u notebook]. unfold omega, a.
  assert (Hm : (2 * PI / 8000000) ^ 2 < 635 / 1000000000000000).
  { replace ((2 * PI / 8000000) ^ 2) with (PI * PI / 16000000000000) by field.
    assert (PI * PI < 315 / 100 * (315 / 100)) by nra. lra. }
  assert (HK : 635 / 1000000000000000 < 2 * (2 * PI / 86164) * (1 / sqrt 2) / 6371000 / 25).
  { replace (2 * (2 * PI / 86164) * (1 / sqrt 2) / 6371000 / 25)
      with (PI * (1 / sqrt 2) / 3430942775000) by (field; lra).
    assert (Hq : 1 / sqrt 2 * sqrt 2 = 1) by (field; lra).
    assert (Hinv : 70 / 100 < 1 / sqrt 2) by nra.
    assert (313 / 100 * (70 / 100) < PI * (1 / sqrt 2)) by nra.
    lra. }
  lra.
Qed.

Lemma notebook_h_length : length notebook_h = n notebook.
Proof.
  unfold notebook_h, gaussian_topography, notebook_grid.
  now rewrite !length_map, length_seq.
Qed.

Lemma C1_spectral_response_witness :
  exists s sp : list C,
    sh (map Fin notebook_h) = Ok (map Fin s) /\
    s = C0 :: tl (dft (map RtoC notebook_h)) /\
    K2 notebook = map Fin (map (K2r notebook) (seq 0 (n notebook))) /\
    Ks2 notebook = Fin (Ks2r notebook) /\
    eps notebook = Ok (map Fin (map (epsr notebook) (seq 0 (n notebook)))) /\
    spsi notebook (map Fin notebook_h) = Ok (map Fin sp) /\
    length sp = n notebook /\
    (forall j : nat, (j < n notebook)%nat ->
       nth j sp C0 =
       Cdiv (Cmul (RtoC (f0 notebook)) (nth j s C0))
            (Cmul (RtoC H)
               (Csub (RtoC (K2r notebook j - Ks2r notebook))
                     (Cmul Ci (RtoC (epsr notebook j)))))) /\
    nth 0 sp C0 = C0 /\
    psi notebook (map Fin notebook_h) = Ok (map (fun z => Fin (re z)) (idft sp)).
Proof.
  apply (C1_spectral_response notebook notebook_h).
  - exact notebook_valid.
  - exact notebook_h_length.
  - exact notebook_off_resonance.
Defined.

(** ** Division by zero in the transfer *)

(** C4, as stated, fails: with [u > 0], [tau > 0] and [m <> 0] the
    denominator of index 0 can be [0j], and the division that produces
    [spsi[0]] is then [0j/0j]. *)
Lemma C4_zero_denominator_counterexample :
  0 < u (resonant_at 45) /\ 0 < tau (resonant_at 45) /\ m (resonant_at 45) <> 0 /\
  (exists d : list (np C),
     denom (resonant_at 45) = Ok d /\ nth_error d 0 = Some (Fin C0)) /\
  (exists sp : list (np C),
     spsi (resonant_at 45) (map Fin [1; 0]) = Ok sp /\ nth_error sp 0 = Some NonFin).
Proof.
  destruct (resonant_valid 45) as [Hv Hres]; [lra|].
  pose proof Hv as (_ & Hu & Ht & _).
  split; [exact Hu|]. split; [exact Ht|]. split; [cbn [m resonant_at]; lra|].
  split.
  - eexists. split; [now apply denom_unfold|].
    cbn [n resonant_at seq map nth_error]. do 2 f_equal.
    rewrite denomr_0, Hres. apply C_eq; cbn [re im C0]; ring.
  - destruct (spsi_resonant (resonant_at 45) Hv [1; 0] eq_refl Hres) as (sp & Hs & _ & H0).
    exists sp. split; assumption.
Qed.

(** C4, amended: for a latitude strictly between the poles, [u > 0],
    [tau > 0] and [m <> 0], every denominator of index [1 <= j <= n-1] is
    nonzero, its imaginary part [-H*eps[j]] being nonzero, and [spsi[j]] is
    finite there.  At [j = 0] the division is carried out as well, by
    [H*(m**2 - Ks2)]: [spsi[0]] is [0] when [m**2 <> Ks2] and non-finite
    when [m**2 = Ks2]. *)
Theorem C4_transfer_denominators (c : config) :
  -90 < latd c < 90 -> 0 < u c -> 0 < tau c -> m c <> 0 -> (0 < n c)%nat ->
  exists (e : list R) (d : list C),
    eps c = Ok (map Fin e) /\
    denom c = Ok (map Fin d) /\
    length d = n c /\
    (forall j : nat, (1 <= j <= n c - 1)%nat ->
       nth j e 0 <> 0 /\
       im (nth j d C0) = - (H * nth j e 0) /\
       im (nth j d C0) <> 0 /\
       nth j d C0 <> C0) /\
    nth 0 d C0 = mkC (H * (m c ^ 2 - Ks2r c)) 0 /\
    forall hr : list R, length hr = n c ->
      exists sp : list (np C),
        spsi c (map Fin hr) = Ok sp /\
        (forall j : nat, (1 <= j <= n c - 1)%nat ->
           exists z : C, nth_error sp j = Some (Fin z)) /\
        (m c ^ 2 <> Ks2r c -> nth_error sp 0 = Some (Fin C0)) /\
        (m c ^ 2 = Ks2r c -> nth_error sp 0 = Some NonFin).
Proof.
  intros Hlat Hu Ht _ Hn.
  assert (Hv : valid_config c) by (repeat split; tauto).
  pose proof (Lx_pos c Hlat) as HL.
  exists (map (epsr c) (seq 0 (n c))), (map (denomr c) (seq 0 (n c))).
  split; [rewrite eps_fin, map_map by assumption; reflexivity|].
  split; [rewrite denom_unfold, map_map by assumption; reflexivity|].
  split; [now rewrite length_map, length_seq|].
  split.
  { intros j [Hj1 Hj2]. rewrite !nth_map_seq by lia.
    pose proof (epsr_pos c j HL Hu Ht Hj1) as He.
    split; [lra|]. split; [reflexivity|].
    split; [cbn [denomr im]; unfold H; lra|].
    now apply denomr_nonzero. }
  split; [rewrite nth_map_seq by lia; apply denomr_0|].
  intros hr Hlen. eexists. split; [now apply spsi_unfold|].
  split; [|split].
  - intros j [Hj1 Hj2]. exists (spsir c hr j).
    rewrite nth_error_map_seq by lia. f_equal. cbn [Nat.add].
    apply spsi_entry_fin. now apply denomr_nonzero.
  - intros Hres. rewrite nth_error_map_seq by lia. f_equal. cbn [Nat.add].
    rewrite spsi_entry_fin; [now rewrite spsir_0|].
    rewrite denomr_0. intros Hz. injection Hz as Hre. unfold H in Hre.
    apply Hres. lra.
  - intros Hres. rewrite nth_error_map_seq by lia. f_equal. cbn [Nat.add].
    rewrite denomr_0, Hres. unfold np_cdiv.
    replace (Cis_zero _) with true; [reflexivity|].
    symmetry. apply Cis_zero_true. apply C_eq; cbn [re im C0]; ring.
Qed.

Lemma C4_transfer_denominators_witness :
  exists (e : list R) (d : list C),
    eps notebook = Ok (map Fin e) /\
    denom notebook = Ok (map Fin d) /\
    length d = n notebook /\
    (forall j : nat, (1 <= j <= n notebook - 1)%nat ->
       nth j e 0 <> 0 /\
       im (nth j d C0) = - (H * nth j e 0) /\
       im (nth j d C0) <> 0 /\
       nth j d C0 <> C0) /\
    nth 0 d C0 = mkC (H * (m notebook ^ 2 - Ks2r notebook)) 0 /\
    forall hr : list R, length hr = n notebook ->
      exists sp : list (np C),
        spsi notebook (map Fin hr) = Ok sp /\
        (forall j : nat, (1 <= j <= n notebook - 1)%nat ->
           exists z : C, nth_error sp j = Some (Fin z)) /\
        (m notebook ^ 2 <> Ks2r notebook -> nth_error sp 0 = Some (Fin C0)) /\
        (m notebook ^ 2 = Ks2r notebook -> nth_error sp 0 = Some NonFin).
Proof.
  apply (C4_transfer_denominators notebook); cbn [latd u tau m n notebook].
  - lra.
  - lra.
  - lra.
  - pose proof PI_RGT_0. lra.
  - lia.
Defined.

(** ** Zero mean *)

(** C10: for every field [h] of length [n], provided [m**2 <> Ks2], the
    values of [psi] add up to zero: [sh[0]] is zeroed, so [spsi[0]] is zero
    and the inverse transform has zero sum. *)
Theorem C10_zero_mean (c : config) (hr : list R) :
  valid_config c -> length hr = n c -> m c ^ 2 <> Ks2r c ->
  exists (sp : list C) (pr : list R),
    spsi c (map Fin hr) = Ok (map Fin sp) /\
    nth 0 sp C0 = C0 /\
    psi c (map Fin hr) = Ok (map Fin pr) /\
    length pr = n c /\
    Rsum pr = 0.
Proof.
  intros Hv Hlen Hres. pose proof Hv as (_ & _ & _ & Hn).
  set (sp := map (spsir c hr) (seq 0 (n c))).
  assert (Hsp : sp <> []) by (now apply seq_nonempty).
  assert (H0 : nth 0 sp C0 = C0).
  { unfold sp. rewrite nth_map_seq by assumption. apply spsir_0. }
  exists sp, (map re (idft sp)).
  split; [now apply spsi_fin|].
  split; [exact H0|].
  split; [rewrite map_map; apply psi_fin; [assumption | now apply spsi_fin]|].
  split.
  - unfold idft, sp. now rewrite !length_map, !length_seq.
  - rewrite Rsum_re, idft_sum by assumption. now rewrite H0.
Qed.

Lemma C10_zero_mean_witness :
  exists (sp : list C) (pr : list R),
    spsi notebook (map Fin notebook_h) = Ok (map Fin sp) /\
    nth 0 sp C0 = C0 /\
    psi notebook (map Fin notebook_h) = Ok (map Fin pr) /\
    length pr = n notebook /\
    Rsum pr = 0.
Proof.
  apply (C10_zero_mean notebook notebook_h).
  - exact notebook_valid.
  - exact notebook_h_length.
  - exact notebook_off_resonance.
Defined.

(** ** The equator *)

Lemma f0_equator (c : config) : latd c = 0 -> f0 c = 0.
Proof.
  intros Hlat. unfold f0, latr, deg2rad. rewrite Hlat, Rmult_0_l, sin_0. ring.
Qed.

(** C5, as stated, fails: at latitude 0 with [u = beta] and [m = 1] the
    Coriolis parameter is zero and [psi] is NaN at every grid point, not
    zero. *)
Lemma C5_equator_counterexample :
  latd (resonant_at 0) = 0 /\
  f0 (resonant_at 0) = 0 /\
  length [1; 0] = n (resonant_at 0) /\
  psi (resonant_at 0) (map Fin [1; 0]) = Ok [NonFin; NonFin].
Proof.
  destruct (resonant_valid 0) as [Hv Hres]; [lra|].
  split; [reflexivity|]. split; [now apply f0_equator|]. split; [reflexivity|].
  destruct (spsi_resonant (resonant_at 0) Hv [1; 0] eq_refl Hres) as (sp & Hs & Hl & H0).
  rewrite (psi_NonFin _ _ sp); [|now apply nth_error_In with 0%nat | exact Hs].
  cbn [n resonant_at] in Hl.
  destruct sp as [|v1 [|v2 [|v3 sp]]]; try discriminate Hl. reflexivity.
Qed.

(** C5, amended: at latitude 0 the Coriolis parameter is zero and, for
    [u > 0], [tau > 0] and [m**2 <> Ks2], [psi] is zero at every grid point
    for every field [h] of length [n]. *)
Theorem C5_equator_response (c : config) (hr : list R) :
  latd c = 0 -> 0 < u c -> 0 < tau c -> (0 < n c)%nat ->
  length hr = n c -> m c ^ 2 <> Ks2r c ->
  f0 c = 0 /\ psi c (map Fin hr) = Ok (repeat (Fin 0) (n c)).
Proof.
  intros Hlat Hu Ht Hn Hlen Hres.
  assert (Hv : valid_config c) by (unfold valid_config; rewrite Hlat; repeat split; (lra || assumption)).
  pose proof (f0_equator c Hlat) as Hf.
  split; [exact Hf|].
  set (sp := map (spsir c hr) (seq 0 (n c))).
  assert (Hz : forall z : C, In z sp -> z = C0).
  { intros z Hin. apply in_map_iff in Hin. destruct Hin as (j & <- & _).
    unfold spsir. rewrite Hf.
    replace (Cmul (RtoC 0) (shr hr j)) with C0 by Ceq. apply Cdiv_0_l. }
  rewrite (psi_fin c hr sp); [|now apply seq_nonempty | now apply spsi_fin].
  rewrite idft_zero by assumption. unfold sp.
  rewrite length_map, length_seq, map_map. cbn [re C0].
  now rewrite map_const, length_seq.
Qed.

Lemma C5_equator_response_witness :
  f0 equatorial = 0 /\
  psi equatorial (map Fin notebook_h)
  = Ok (repeat (Fin 0) (n equatorial)).
Proof.
  apply (C5_equator_response equatorial notebook_h).
  - reflexivity.
  - cbn [u equatorial]. lra.
  - cbn [tau equatorial]. lra.
  - cbn [n equatorial]. lia.
  - exact notebook_h_length.
  - pose proof PI_bounds as [Hlo Hhi].
    unfold Ks2r, beta, latr, deg2rad. cbn [latd m u equatorial].
    rewrite Rmult_0_l, cos_0. unfold omega, a.
    assert (Hm : (2 * PI / 8000000) ^ 2 < 635 / 1000000000000000).
    { replace ((2 * PI / 8000000) ^ 2) with (PI * PI / 16000000000000) by field.
      assert (PI * PI < 315 / 100 * (315 / 100)) by nra. lra. }
    assert (HK : 635 / 1000000000000000 < 2 * (2 * PI / 86164) * 1 / 6371000 / 25) by lra.
    lra.
Defined.

(** ** Hermitian symmetry of the adjusted spectrum *)

(** C2, amended: for a valid configuration with [f0 <> 0] and every real
    field [h] of length [n], the spectrum [sh] is Hermitian-symmetric but
    the adjusted spectrum is not: at every index [1 <= j <= n-1] with
    [sh[j] <> 0], [spsi[n-j]] differs from the conjugate of [spsi[j]], the
    damping terms [eps[j]] and [eps[n-j]] being both positive.  The
    imaginary part of the inverse transform is dropped by [np.real]
    without being small. *)
Theorem C2_adjusted_spectrum_not_hermitian (c : config) (hr : list R) (j : nat) :
  valid_config c -> f0 c <> 0 -> length hr = n c ->
  (1 <= j <= n c - 1)%nat -> shr hr j <> C0 ->
  sh (map Fin hr) = Ok (map (fun i => Fin (shr hr i)) (seq 0 (n c))) /\
  shr hr (n c - j) = Cconj (shr hr j) /\
  eps c = Ok (map (fun i => Fin (epsr c i)) (seq 0 (n c))) /\
  0 < epsr c j /\ 0 < epsr c (n c - j) /\
  exists (sp : list (np C)) (z z' : C),
    spsi c (map Fin hr) = Ok sp /\
    nth_error sp j = Some (Fin z) /\
    nth_error sp (n c - j) = Some (Fin z') /\
    z' <> Cconj z.
Proof.
  intros Hv Hf Hlen Hj Hs. pose proof Hv as (Hlat & Hu & Ht & Hn).
  pose proof (Lx_pos c Hlat) as HL.
  assert (Hherm : shr hr (n c - j) = Cconj (shr hr j)).
  { rewrite <- Hlen. apply shr_hermitian. lia. }
  assert (He : 0 < epsr c j) by (apply epsr_pos; (assumption || lia)).
  assert (He' : 0 < epsr c (n c - j)) by (apply epsr_pos; (assumption || lia)).
  split.
  { rewrite <- Hlen. apply sh_unfold. destruct hr; [simpl in Hlen; lia | discriminate]. }
  split; [exact Hherm|]. split; [now apply eps_fin|].
  split; [exact He|]. split; [exact He'|].
  exists (map (fun i => np_cdiv (Fin (Cmul (RtoC (f0 c)) (shr hr i))) (Fin (denomr c i)))
              (seq 0 (n c))),
         (spsir c hr j), (spsir c hr (n c - j)).
  split; [now apply spsi_unfold|].
  split; [rewrite nth_error_map_seq by lia; cbn [Nat.add]; f_equal;
          apply spsi_entry_fin; apply denomr_nonzero; (assumption || lia)|].
  split; [rewrite nth_error_map_seq by lia; cbn [Nat.add]; f_equal;
          apply spsi_entry_fin; apply denomr_nonzero; (assumption || lia)|].
  unfold spsir. rewrite Hherm, Cconj_div, Cconj_mul.
  replace (Cconj (RtoC (f0 c))) with (RtoC (f0 c)) by Ceq.
  intros Heq. apply Cdiv_cancel in Heq.
  - apply (f_equal im) in Heq. cbn [im denomr Cconj] in Heq. unfold H in Heq. lra.
  - intros Hz. apply Cmul_integral in Hz.
    + apply Hs. now apply Cconj_zero.
    + intros Hz'. apply (f_equal re) in Hz'. cbn [re RtoC C0] in Hz'. contradiction.
  - apply denomr_nonzero; (assumption || lia).
  - intros Hz. apply (denomr_nonzero c Hv j); [lia|]. now apply Cconj_zero.
Qed.

(** The spectrum of a unit bump in the first grid box is 1 at every index. *)
Lemma shr_impulse (len j : nat) :
  (1 <= j)%nat -> shr (1 :: repeat 0 len) j = RtoC 1.
Proof.
  intros Hj. unfold shr. destruct j as [|i]; [lia|].
  unfold dft_coeff. cbn [map length seq Csum fold_right nth].
  rewrite <- seq_shift, map_map.
  fold (Csum (map (fun i0 =>
          Cmul (nth (S i0) (RtoC 1 :: map RtoC (repeat 0 len)) C0)
               (cis (-1 * (2 * PI * INR (S i) * INR (S i0)
                           / INR (S (length (map RtoC (repeat 0 len))))))))
          (seq 0 (length (map RtoC (repeat 0 len)))))).
  rewrite Csum_map_zero.
  - replace (-1 * (2 * PI * INR (S i) * INR 0
                   / INR (S (length (map RtoC (repeat 0 len)))))) with 0
      by (cbn [INR]; unfold Rdiv; ring).
    rewrite cis_0. Ceq.
  - intros i0 _. cbn [nth]. rewrite nth_map_RtoC, nth_repeat. apply Cmul_0_l.
Qed.

Lemma notebook_f0_pos : 0 < f0 notebook.
Proof.
  pose proof PI_RGT_0. pose proof sqrt2_bounds as [Hlo Hhi].
  unfold f0. rewrite notebook_latr, sin_PI4. unfold omega.
  apply Rmult_lt_0_compat; [lra|]. apply Rdiv_lt_0_compat; lra.
Qed.

Lemma C2_adjusted_spectrum_not_hermitian_witness :
  sh (map Fin impulse) = Ok (map (fun i => Fin (shr impulse i)) (seq 0 (n notebook))) /\
  shr impulse (n notebook - 1) = Cconj (shr impulse 1) /\
  eps notebook = Ok (map (fun i => Fin (epsr notebook i)) (seq 0 (n notebook))) /\
  0 < epsr notebook 1 /\ 0 < epsr notebook (n notebook - 1) /\
  exists (sp : list (np C)) (z z' : C),
    spsi notebook (map Fin impulse) = Ok sp /\
    nth_error sp 1 = Some (Fin z) /\
    nth_error sp (n notebook - 1) = Some (Fin z') /\
    z' <> Cconj z.
Proof.
  apply (C2_adjusted_spectrum_not_hermitian notebook impulse 1%nat).
  - exact notebook_valid.
  - pose proof notebook_f0_pos. lra.
  - unfold impulse. cbn [length]. rewrite repeat_length. reflexivity.
  - cbn [n notebook]. lia.
  - unfold impulse. rewrite shr_impulse by lia. intros Hz. apply (f_equal re) in Hz.
    cbn [re RtoC C0] in Hz. lra.
Defined.

(** *** Two grid boxes *)

Lemma coarse_latr : latr coarse = PI / 4.
Proof. unfold latr, deg2rad. cbn [latd coarse]. field. Qed.

Lemma coarse_valid : valid_config coarse.
Proof.
  unfold valid_config. cbn [latd u tau n coarse]. repeat split; try lra; lia.
Qed.

Lemma coarse_f0_pos : 0 < f0 coarse.
Proof.
  pose proof PI_RGT_0. pose proof sqrt2_bounds as [Hlo Hhi].
  unfold f0. rewrite coarse_latr, sin_PI4. unfold omega.
  apply Rmult_lt_0_compat; [lra|]. apply Rdiv_lt_0_compat; lra.
Qed.

Lemma inv_sqrt2_bounds : 70 / 100 < 1 / sqrt 2 < 71 / 100.
Proof.
  pose proof sqrt2_bounds as [Hlo Hhi].
  assert (Hq : 1 / sqrt 2 * sqrt 2 = 1) by (field; lra).
  split; nra.
Qed.

Lemma coarse_kr : kr coarse = sqrt 2 / a.
Proof.
  pose proof PI_RGT_0. pose proof sqrt2_bounds as [Hlo Hhi].
  unfold kr, Lx. rewrite coarse_latr, cos_PI4. unfold a. field. lra.
Qed.

Lemma coarse_K2r_bounds :
  66 / 100000000000000 < K2r coarse 1 < 67 / 100000000000000.
Proof.
  pose proof PI_bounds as [Hlo Hhi].
  assert (Hs : sqrt 2 * sqrt 2 = 2) by (apply sqrt_sqrt; lra).
  unfold K2r. rewrite coarse_kr. cbn [m coarse INR]. unfold a.
  replace ((sqrt 2 / 6371000 * 1) ^ 2 + (2 * PI / 8000000) ^ 2)
    with (sqrt 2 * sqrt 2 / 40589641000000 + PI * PI / 16000000000000) by field.
  rewrite Hs.
  assert (313 / 100 * (313 / 100) < PI * PI < 315 / 100 * (315 / 100)) by (split; nra).
  split; lra.
Qed.

Lemma coarse_Ks2r_bounds :
  638 / 1000000000000000 < Ks2r coarse < 652 / 1000000000000000.
Proof.
  pose proof PI_bounds as [Hlo Hhi]. pose proof inv_sqrt2_bounds as [Hrlo Hrhi].
  pose proof sqrt2_bounds as [Hslo Hshi].
  unfold Ks2r, beta. rewrite coarse_latr, cos_PI4. cbn [u coarse]. unfold omega, a.
  replace (2 * (2 * PI / 86164) * (1 / sqrt 2) / 6371000 / 25)
    with (PI * (1 / sqrt 2) / 3430942775000) by (field; lra).
  assert (313 / 100 * (70 / 100) < PI * (1 / sqrt 2) < 315 / 100 * (71 / 100))
    by (split; nra).
  split; lra.
Qed.

Lemma coarse_epsr_bound : 27 / 100000000000000 < epsr coarse 1.
Proof.
  pose proof coarse_K2r_bounds as [HKlo HKhi].
  pose proof inv_sqrt2_bounds as [Hrlo Hrhi].
  pose proof sqrt2_bounds as [Hslo Hshi].
  unfold epsr. rewrite coarse_kr. cbn [tau u coarse INR]. unfold a.
  replace (1 / (5 * 86164) * K2r coarse 1 / (sqrt 2 / 6371000 * 1 * 25))
    with (K2r coarse 1 * (1 / sqrt 2) * (6371000 / 10770500)) by (field; lra).
  assert (66 / 100000000000000 * (70 / 100) < K2r coarse 1 * (1 / sqrt 2)) by nra.
  lra.
Qed.

Lemma coarse_damping_dominates :
  Rabs (K2r coarse 1 - Ks2r coarse) < epsr coarse 1.
Proof.
  pose proof coarse_K2r_bounds as [HKlo HKhi].
  pose proof coarse_Ks2r_bounds as [Hslo Hshi].
  pose proof coarse_epsr_bound as He.
  apply Rabs_def1; lra.
Qed.

(** The one nonzero coefficient of the adjusted spectrum of [[1; 0]] on two
    grid boxes: real part proportional to [K2[1] - Ks2], imaginary part to
    [eps[1]]. *)
Lemma coarse_spsi_1 :
  exists F : R,
    0 < F /\
    re (spsir coarse [1; 0] 1) = F * (K2r coarse 1 - Ks2r coarse) /\
    im (spsir coarse [1; 0] 1) = F * epsr coarse 1.
Proof.
  pose proof coarse_f0_pos as Hf.
  assert (Hd : denomr coarse 1 <> C0)
    by (apply denomr_nonzero; [exact coarse_valid | lia]).
  pose proof (Cnorm2_pos _ Hd) as Hn.
  exists (f0 coarse * H / (re (denomr coarse 1) ^ 2 + im (denomr coarse 1) ^ 2)).
  split.
  - apply Rdiv_lt_0_compat; [|assumption]. unfold H. nra.
  - unfold spsir. rewrite shr_pair.
    cbn [re im Cmul Cdiv RtoC denomr] in *. split; field; lra.
Qed.

(** C2, as stated, fails: on two grid boxes with the notebook's parameters
    and the field [[1; 0]], the adjusted spectrum is not Hermitian-symmetric
    (its entry of index 1 = n - 1 is not its own conjugate) and the inverse
    transform has, at grid point 0, an imaginary part larger in magnitude
    than the real part that [psi] keeps. *)
Lemma C2_imaginary_part_counterexample :
  valid_config coarse /\
  length [1; 0] = n coarse /\
  exists s0 s1 z0 z1 : C,
    spsi coarse (map Fin [1; 0]) = Ok [Fin s0; Fin s1] /\
    s1 <> Cconj s1 /\
    psi_complex coarse (map Fin [1; 0]) = Ok [Fin z0; Fin z1] /\
    psi coarse (map Fin [1; 0]) = Ok [Fin (re z0); Fin (re z1)] /\
    Rabs (re z0) < Rabs (im z0).
Proof.
  pose proof coarse_valid as Hv.
  assert (Hres : m coarse ^ 2 <> Ks2r coarse) by exact notebook_off_resonance.
  destruct coarse_spsi_1 as (F & HF & Hre & Him).
  pose proof coarse_damping_dominates as Hdom.
  assert (He : 0 < epsr coarse 1) by (apply valid_epsr_pos; [exact Hv | lia]).
  set (s1 := spsir coarse [1; 0] 1) in *.
  assert (Hs : spsi coarse (map Fin [1; 0]) = Ok [Fin C0; Fin s1]).
  { rewrite spsi_fin by (assumption || reflexivity).
    cbn [n coarse seq map]. now rewrite spsir_0. }
  assert (Hpc : psi_complex coarse (map Fin [1; 0])
                = Ok [Fin (Cmul (RtoC (/ 2)) (Cadd C0 s1));
                      Fin (Cmul (RtoC (/ 2)) (Csub C0 s1))]).
  { unfold psi_complex, ifft. rewrite Hs. cbn [bind].
    change [Fin C0; Fin s1] with (map Fin [C0; s1]).
    rewrite np_transform_fin by discriminate. now rewrite idft_pair. }
  split; [exact Hv|]. split; [reflexivity|].
  exists C0, s1, (Cmul (RtoC (/ 2)) (Cadd C0 s1)), (Cmul (RtoC (/ 2)) (Csub C0 s1)).
  split; [exact Hs|].
  split.
  { intros Hc. apply (f_equal im) in Hc. cbn [im Cconj] in Hc. nra. }
  split; [exact Hpc|].
  split; [unfold psi; rewrite Hpc; reflexivity|].
  cbn [re im Cmul Cadd RtoC C0]. rewrite Hre, Him.
  replace (/ 2 * (0 + F * (K2r coarse 1 - Ks2r coarse)) - 0 * (0 + F * epsr coarse 1))
    with (/ 2 * F * (K2r coarse 1 - Ks2r coarse)) by ring.
  replace (/ 2 * (0 + F * epsr coarse 1) + 0 * (0 + F * (K2r coarse 1 - Ks2r coarse)))
    with (/ 2 * F * epsr coarse 1) by ring.
  rewrite (Rabs_mult (/ 2 * F) (K2r coarse 1 - Ks2r coarse)).
  rewrite (Rabs_mult (/ 2 * F) (epsr coarse 1)).
  rewrite (Rabs_pos_eq (/ 2 * F)) by nra.
  apply Rmult_lt_compat_l; [nra|].
  apply Rlt_le_trans with (1 := Hdom). apply Rle_abs.
Qed.

(** * Further properties of the notebook *)

(** ** A zero damping time *)

(** X1: with [tau = 0] the Model-parameters cell stops at [r = 1./tau], a
    division of two Python floats, with [ZeroDivisionError]: neither [r]
    nor [eps] is produced, whatever the wind. *)
Theorem tau_zero_raises (c : config) :
  tau c = 0 ->
  r c = Raise ZeroDivisionError /\
  eps c = Raise ZeroDivisionError /\
  model_parameters c = Raise ZeroDivisionError.
Proof.
  intros Ht.
  assert (Hr : r c = Raise ZeroDivisionError).
  { unfold r, py_div. rewrite Ht.
    destruct (Req_dec_T 0 0) as [_|Hne]; [reflexivity | now elim Hne]. }
  split; [exact Hr|].
  split; [unfold eps | unfold model_parameters]; now rewrite Hr.
Qed.

Lemma tau_zero_raises_witness :
  r undamped = Raise ZeroDivisionError /\
  eps undamped = Raise ZeroDivisionError /\
  model_parameters undamped = Raise ZeroDivisionError.
Proof.
  apply (tau_zero_raises undamped). reflexivity.
Defined.

(** ** The grid in degrees *)

(** X8: at the notebook's own configuration, latitude 45 and [n = 480],
    the binary64 quotient is [480.0]: the grid has 480 coordinates, which
    start at [-Lx/2], increase and lie in [[-Lx/2, Lx/2)]; the plotted
    longitudes increase from [-180.00000000000003], the binary64 number
    next below [-180] that [-Lx/2.*360./Lx] rounds to, and stay below
    [180]. *)
Theorem grid64_notebook :
  ceil64 (quotient64 Lx45 480) = Some 480%Z /\
  exists xs : list PrimFloat.float,
    grid64 Lx45 480 = Ok xs /\ length xs = 480%nat /\
    hd_error xs = Some (lower Lx45) /\
    increasing xs = true /\
    within (lower Lx45) (upper Lx45) xs = true /\
    hd_error (degrees64 Lx45 xs) = Some below_west /\
    increasing (degrees64 Lx45 xs) = true /\
    within below_west east (degrees64 Lx45 xs) = true.
Proof.
  split; [reflexivity|].
  eexists. split; [vm_compute; reflexivity|].
  repeat split; vm_compute; reflexivity.
Qed.

(** ** Shape of the Gaussian topography *)

Lemma exp_nonpos_le_1 (t : R) : t <= 0 -> exp t <= 1.
Proof.
  intros Ht. destruct (Req_dec_T t 0) as [->|Hne].
  - rewrite exp_0. lra.
  - rewrite <- exp_0. left. apply exp_increasing. lra.
Qed.

Lemma gaussian_height_bounds (xi : R) :
  0 < gaussian_height 4000 1000000 xi <= 4000 / sqrt PI.
Proof.
  pose proof sqrt_PI_bounds as [Hlo Hhi].
  assert (Hsq : sqrt (PI * 1000000 ^ 2) = sqrt PI * 1000000).
  { rewrite sqrt_mult by (pose proof PI_bounds; lra). now rewrite sqrt_pow2 by lra. }
  unfold gaussian_height. rewrite Hsq.
  pose proof (exp_pos (- (xi / 1000000) ^ 2)) as He.
  assert (He1 : exp (- (xi / 1000000) ^ 2) <= 1).
  { apply exp_nonpos_le_1. pose proof (pow2_ge_0 (xi / 1000000)). lra. }
  replace (4000 * 1000000 * exp (- (xi / 1000000) ^ 2) / (sqrt PI * 1000000))
    with (4000 / sqrt PI * exp (- (xi / 1000000) ^ 2)) by (field; lra).
  assert (Hp : 0 < 4000 / sqrt PI) by (apply Rdiv_lt_0_compat; lra).
  split; nra.
Qed.

Lemma gaussian_height_even (xi : R) :
  gaussian_height 4000 1000000 (- xi) = gaussian_height 4000 1000000 xi.
Proof.
  unfold gaussian_height.
  replace (- (- xi / 1000000) ^ 2) with (- (xi / 1000000) ^ 2) by (field; lra).
  reflexivity.
Qed.

Lemma gaussian_topography_map (xs : list R) :
  gaussian_topography xs = map (gaussian_height 4000 1000000) xs.
Proof.
  unfold gaussian_topography. apply map_ext. intros xi.
  apply gaussian_height_notebook.
Qed.

(** X9: on any grid the Gaussian topography has one height per coordinate,
    every height is positive and at most the peak [4000/sqrt(pi)], and the
    profile is even: the mirrored grid gives the same heights. *)
Theorem gaussian_topography_shape (xs : list R) :
  length (gaussian_topography xs) = length xs /\
  Forall (fun v => 0 < v <= 4000 / sqrt PI) (gaussian_topography xs) /\
  gaussian_topography (map Ropp xs) = gaussian_topography xs.
Proof.
  rewrite !gaussian_topography_map.
  split; [apply length_map|]. split.
  - apply Forall_forall. intros v Hv. apply in_map_iff in Hv.
    destruct Hv as (xi & <- & _). apply gaussian_height_bounds.
  - rewrite map_map. apply map_ext. intros xi. apply gaussian_height_even.
Qed.

(** ** The Gaussian topography on the grid *)

(** X10: for a latitude strictly between the poles and a positive even
    [n], the grid has the coordinate [0] at index [n/2], where the Gaussian
    topography takes its peak [4000/sqrt(pi)]; the grid points [i] and
    [n-i] are opposite, so the sampled topography satisfies
    [h[n-i] = h[i]] for [1 <= i <= n-1]. *)
Theorem gaussian_on_grid (c : config) :
  -90 < latd c < 90 -> (0 < n c)%nat -> Nat.even (n c) = true ->
  exists xs : list R,
    x c = Ok xs /\
    nth (n c / 2) xs 1 = 0 /\
    nth (n c / 2) (gaussian_topography xs) 0 = 4000 / sqrt PI /\
    forall i : nat, (1 <= i <= n c - 1)%nat ->
      nth (n c - i) xs 0 = - nth i xs 0 /\
      nth (n c - i) (gaussian_topography xs) 0 = nth i (gaussian_topography xs) 0.
Proof.
  intros Hlat Hn Hev. pose proof (Lx_pos c Hlat) as HL.
  assert (Hnn : 0 < INR (n c)) by (apply lt_0_INR; lia).
  set (f := fun i : nat => - Lx c / 2 + INR i * (Lx c / INR (n c))).
  assert (Hx : forall (i : nat) (d : R), (i < n c)%nat -> nth i (map f (seq 0 (n c))) d = f i).
  { intros i d Hi. now apply nth_map_seq. }
  assert (Hg : forall i : nat, (i < n c)%nat ->
             nth i (gaussian_topography (map f (seq 0 (n c)))) 0
             = gaussian_height 4000 1000000 (f i)).
  { intros i Hi. rewrite gaussian_topography_map, map_map.
    now apply (nth_map_seq (fun j => gaussian_height 4000 1000000 (f j))). }
  apply Nat.even_spec in Hev. destruct Hev as [half Hhalf].
  assert (Hdiv : (n c / 2 = half)%nat).
  { rewrite Hhalf, Nat.mul_comm. apply Nat.div_mul. lia. }
  assert (Hmid : f (n c / 2)%nat = 0).
  { rewrite Hdiv. unfold f. rewrite Hhalf, mult_INR. cbn [INR].
    assert (Hh : 0 < INR half) by (apply lt_0_INR; lia).
    field. lra. }
  exists (map f (seq 0 (n c))).
  split; [unfold x; now apply grid_unfold|].
  split; [rewrite Hx by (rewrite Hdiv; lia); exact Hmid|].
  split.
  { rewrite Hg by (rewrite Hdiv; lia). rewrite Hmid.
    unfold gaussian_height.
    replace (- (0 / 1000000) ^ 2) with 0 by (field; lra). rewrite exp_0.
    rewrite sqrt_mult by (pose proof PI_bounds; lra). rewrite sqrt_pow2 by lra.
    pose proof sqrt_PI_bounds. field. lra. }
  intros i [Hi1 Hi2].
  assert (Hopp : f (n c - i)%nat = - f i).
  { unfold f. rewrite minus_INR by lia. field. lra. }
  split.
  - rewrite !Hx by lia. exact Hopp.
  - rewrite !Hg by lia. rewrite Hopp. apply gaussian_height_even.
Qed.

Lemma gaussian_on_grid_witness :
  exists xs : list R,
    x notebook = Ok xs /\
    nth (n notebook / 2) xs 1 = 0 /\
    nth (n notebook / 2) (gaussian_topography xs) 0 = 4000 / sqrt PI /\
    forall i : nat, (1 <= i <= n notebook - 1)%nat ->
      nth (n notebook - i) xs 0 = - nth i xs 0 /\
      nth (n notebook - i) (gaussian_topography xs) 0
      = nth i (gaussian_topography xs) 0.
Proof.
  apply (gaussian_on_grid notebook); cbn [latd n notebook]; [lra | lia | reflexivity].
Defined.

(** ** The nearest latitude row *)

Lemma argmin_from_spec (l : list R) :
  forall (best : R) (bi i : nat),
    (argmin_from best bi i l = bi /\
     forall j : nat, (j < length l)%nat -> best <= nth j l 0) \/
    (exists j : nat,
       (j < length l)%nat /\
       argmin_from best bi i l = (i + j)%nat /\
       nth j l 0 < best /\
       (forall j' : nat, (j' < length l)%nat -> nth j l 0 <= nth j' l 0) /\
       (forall j' : nat, (j' < j)%nat -> nth j l 0 < nth j' l 0)).
Proof.
  induction l as [|v t IH]; intros best bi i.
  - left. split; [reflexivity|]. intros j Hj. cbn [length] in Hj. lia.
  - cbn [argmin_from]. destruct (Rlt_dec v best) as [Hlt|Hge].
    + right. destruct (IH v i (S i)) as [[Hr Hall]|(j & Hj & Hr & Hjv & Hmin & Hfirst)].
      * exists 0%nat. cbn [length nth]. repeat split.
        -- lia.
        -- rewrite Hr. lia.
        -- assumption.
        -- intros [|j'] Hj'; [lra|]. apply Hall. cbn [length] in Hj'. lia.
        -- intros j' Hj'. lia.
      * exists (S j). cbn [length nth]. repeat split.
        -- lia.
        -- rewrite Hr. lia.
        -- lra.
        -- intros [|j'] Hj'; [lra|]. apply Hmin. cbn [length] in Hj'. lia.
        -- intros [|j'] Hj'; [lra|]. apply Hfirst. lia.
    + assert (Hbv : best <= v) by lra.
      destruct (IH best bi (S i)) as [[Hr Hall]|(j & Hj & Hr & Hjv & Hmin & Hfirst)].
      * left. split; [assumption|]. intros [|j'] Hj'; cbn [nth]; [lra|].
        apply Hall. cbn [length] in Hj'. lia.
      * right. exists (S j). cbn [length nth]. repeat split.
        -- lia.
        -- rewrite Hr. lia.
        -- assumption.
        -- intros [|j'] Hj'; [lra|]. apply Hmin. cbn [length] in Hj'. lia.
        -- intros [|j'] Hj'; [lra|]. apply Hfirst. lia.
Qed.

Lemma argmin_spec (l : list R) (i : nat) :
  argmin l = Ok i ->
  (i < length l)%nat /\
  (forall j : nat, (j < length l)%nat -> nth i l 0 <= nth j l 0) /\
  (forall j : nat, (j < i)%nat -> nth i l 0 < nth j l 0).
Proof.
  destruct l as [|v t]; [discriminate|]. cbn [argmin]. intros Hr.
  injection Hr as Hr.
  destruct (argmin_from_spec t v 0%nat 1%nat) as [[Hi Hall]|(j & Hj & Hi & Hjv & Hmin & Hfirst)];
    rewrite Hi in Hr; subst i.
  - cbn [length nth]. repeat split.
    + lia.
    + intros [|j] Hj; [lra|]. apply Hall. lia.
    + intros j Hj. lia.
  - cbn [length nth Nat.add]. repeat split.
    + lia.
    + intros [|j'] Hj'; [lra|]. apply Hmin. lia.
    + intros [|j'] Hj'; [lra|]. apply Hfirst. lia.
Qed.

Lemma nth_distance (lats : list R) (t : R) (j : nat) :
  (j < length lats)%nat ->
  nth j (map (fun l => Rabs (l - t)) lats) 0 = Rabs (nth j lats 0 - t).
Proof.
  intros Hj.
  rewrite nth_indep with (d' := Rabs (0 - t)) by (now rewrite length_map).
  apply (map_nth (fun l => Rabs (l - t))).
Qed.

(** X11: the row index [iy] that [world_topography] computes is a row of
    the file, no row is nearer to the target latitude, and among equally
    near rows it is the first. *)
Theorem nearest_latitude_row (ds : dataset) (c : config) (iy : nat) :
  argmin (map (fun l => Rabs (l - latd c)) (latitude ds)) = Ok iy ->
  (iy < length (latitude ds))%nat /\
  (forall j : nat, (j < length (latitude ds))%nat ->
     Rabs (nth iy (latitude ds) 0 - latd c) <= Rabs (nth j (latitude ds) 0 - latd c)) /\
  (forall j : nat, (j < iy)%nat ->
     Rabs (nth iy (latitude ds) 0 - latd c) < Rabs (nth j (latitude ds) 0 - latd c)).
Proof.
  intros Harg. apply argmin_spec in Harg.
  rewrite length_map in Harg. destruct Harg as (Hi & Hmin & Hfirst).
  split; [exact Hi|]. split.
  - intros j Hj. rewrite <- !nth_distance by assumption. now apply Hmin.
  - intros j Hj. rewrite <- !nth_distance by lia. now apply Hfirst.
Qed.

Lemma nearest_latitude_row_witness :
  (5 < length (latitude ridge))%nat /\
  (forall j : nat, (j < length (latitude ridge))%nat ->
     Rabs (nth 5 (latitude ridge) 0 - latd notebook)
     <= Rabs (nth j (latitude ridge) 0 - latd notebook)) /\
  (forall j : nat, (j < 5)%nat ->
     Rabs (nth 5 (latitude ridge) 0 - latd notebook)
     < Rabs (nth j (latitude ridge) 0 - latd notebook)).
Proof.
  apply (nearest_latitude_row ridge notebook 5%nat). exact ridge_nearest.
Defined.

(** ** The latitude band *)

Lemma band_slice {A : Type} (slab : list A) (iy : nat) :
  (5 <= iy)%nat ->
  py_slice slab (Z.of_nat iy - 5) (Z.of_nat iy + 5) = band slab iy.
Proof.
  intros Hlo. unfold py_slice, band.
  rewrite !slice_bound_nonneg by lia.
  destruct (Nat.le_gt_cases (iy + 5) (length slab)) as [Hhi|Hhi].
  - rewrite !Z.min_l by lia.
    replace (Z.to_nat (Z.of_nat iy + 5 - (Z.of_nat iy - 5))) with 10%nat by lia.
    replace (Z.to_nat (Z.of_nat iy - 5)) with (iy - 5)%nat by lia.
    reflexivity.
  - destruct (Nat.le_gt_cases (iy - 5) (length slab)) as [Hmid|Hmid].
    + rewrite (Z.min_r (Z.of_nat iy + 5)), (Z.min_l (Z.of_nat iy - 5)) by lia.
      replace (Z.to_nat (Z.of_nat iy - 5)) with (iy - 5)%nat by lia.
      rewrite !firstn_all2; [reflexivity | |]; rewrite length_skipn; lia.
    + rewrite !Z.min_r by lia. rewrite Z.sub_diag. cbn [Z.to_nat firstn].
      rewrite (skipn_all2 slab) by lia. reflexivity.
Qed.

Lemma band_length {A : Type} (slab : list A) (iy : nat) :
  length (band slab iy) = Nat.min 10 (length slab - (iy - 5)).
Proof. unfold band. now rewrite length_firstn, length_skipn. Qed.

Lemma band_nth {A : Type} (slab : list A) (iy t : nat) (d : A) :
  (t < length (band slab iy))%nat ->
  nth t (band slab iy) d = nth (iy - 5 + t) slab d.
Proof.
  intros Ht. rewrite band_length in Ht. unfold band.
  rewrite nth_firstn.
  destruct (Nat.ltb_spec t 10) as [_|Hge]; [apply nth_skipn | lia].
Qed.

Lemma mean_axis0_fin (ncols : nat) (rows : list (list R)) :
  rows <> [] ->
  mean_axis0 ncols rows = map (fun j => Fin (column_mean rows j)) (seq 0 ncols).
Proof.
  intros Hr. unfold mean_axis0, column_mean. apply map_ext. intros j.
  apply np_div_fin. apply not_0_INR. destruct rows; [now elim Hr | discriminate].
Qed.

Lemma mean_axis0_empty (ncols : nat) :
  mean_axis0 ncols [] = map (fun _ => NonFin) (seq 0 ncols).
Proof.
  unfold mean_axis0. apply map_ext. intros j. cbn [length INR]. apply np_div_zero.
Qed.

Lemma g_nonzero : g <> 0.
Proof. unfold g. lra. Qed.

(** X12: when the nearest row [iy] is at least the sixth row of the file,
    [world_topography] returns one finite height per longitude, the mean
    of that column over the band divided by [g]; the band is the rows
    [iy-5], [iy-4], ... of the file, between six and ten of them, so it
    ends at row [iy+4] at the latest. *)
Theorem world_topography_band (ds : dataset) (c : config) (iy : nat)
    (slab : list (list R)) (rest : list (list (list R))) :
  argmin (map (fun l => Rabs (l - latd c)) (latitude ds)) = Ok iy ->
  srfgeo ds = slab :: rest ->
  (5 <= iy < length slab)%nat ->
  world_topography ds c
  = Ok (map (fun j => Fin (column_mean (band slab iy) j / g))
            (seq 0 (length (hd [] slab)))) /\
  (6 <= length (band slab iy) <= 10)%nat /\
  length (band slab iy) = Nat.min 10 (length slab - (iy - 5)) /\
  forall t : nat, (t < length (band slab iy))%nat ->
    nth t (band slab iy) [] = nth (iy - 5 + t) slab [].
Proof.
  intros Harg Hsrf [Hlo Hhi].
  pose proof (band_length slab iy) as Hlen.
  split.
  - unfold world_topography. rewrite Harg, Hsrf. cbn [bind].
    rewrite band_slice by assumption.
    rewrite mean_axis0_fin by (intros Hnil; rewrite Hnil in Hlen; cbn [length] in Hlen; lia).
    rewrite map_map. f_equal. apply map_ext. intros j.
    apply np_div_fin, g_nonzero.
  - split; [lia|]. split; [exact Hlen|].
    intros t Ht. now apply band_nth.
Qed.

Lemma world_topography_band_witness :
  world_topography ridge notebook
  = Ok (map (fun j => Fin (column_mean (band (hd [] (srfgeo ridge)) 5) j / g))
            (seq 0 (length (hd [] (hd [] (srfgeo ridge)))))) /\
  (6 <= length (band (hd [] (srfgeo ridge)) 5) <= 10)%nat /\
  length (band (hd [] (srfgeo ridge)) 5)
  = Nat.min 10 (length (hd [] (srfgeo ridge)) - (5 - 5)) /\
  forall t : nat, (t < length (band (hd [] (srfgeo ridge)) 5))%nat ->
    nth t (band (hd [] (srfgeo ridge)) 5) [] = nth (5 - 5 + t) (hd [] (srfgeo ridge)) [].
Proof.
  apply (world_topography_band ridge notebook 5%nat (hd [] (srfgeo ridge)) []).
  - exact ridge_nearest.
  - reflexivity.
  - cbn [srfgeo ridge hd length]. lia.
Defined.

(** X13: when the nearest row is one of the first five rows of a file of
    at least ten rows, the slice start [iy-5] is negative and counts from
    the end of the file: the band is empty and [world_topography] returns
    NaN at every longitude, without raising. *)
Theorem world_topography_wraps (ds : dataset) (c : config) (iy : nat)
    (slab : list (list R)) (rest : list (list (list R))) :
  argmin (map (fun l => Rabs (l - latd c)) (latitude ds)) = Ok iy ->
  srfgeo ds = slab :: rest ->
  (iy < 5)%nat -> (10 <= length slab)%nat ->
  py_slice slab (Z.of_nat iy - 5) (Z.of_nat iy + 5) = [] /\
  world_topography ds c = Ok (repeat NonFin (length (hd [] slab))).
Proof.
  intros Harg Hsrf Hlo Hlen.
  assert (Hs : py_slice slab (Z.of_nat iy - 5) (Z.of_nat iy + 5) = []).
  { unfold py_slice, slice_bound.
    destruct (Z.ltb_spec (Z.of_nat iy - 5) 0) as [_|Hge]; [|lia].
    destruct (Z.ltb_spec (Z.of_nat iy + 5) 0) as [Hneg|_]; [lia|].
    replace (Z.to_nat (Z.min (Z.of_nat iy + 5) (Z.of_nat (length slab))
                       - Z.max 0 (Z.of_nat iy - 5 + Z.of_nat (length slab))))
      with 0%nat by lia.
    reflexivity. }
  split; [exact Hs|].
  unfold world_topography. rewrite Harg, Hsrf. cbn [bind].
  rewrite Hs, mean_axis0_empty, map_map. cbn [np_div].
  now rewrite map_const, length_seq.
Qed.

Lemma ridge_nearest_northern :
  argmin (map (fun l => Rabs (l - latd northern)) (latitude ridge)) = Ok 1%nat.
Proof.
  assert (Hd : map (fun l => Rabs (l - latd northern)) (latitude ridge)
               = [1; 0; 1; 2; 3; 4; 5; 6; 7; 8; 9]).
  { cbn [map latitude ridge latd northern].
    repeat (apply f_equal2; [unfold Rabs; destruct (Rcase_abs _); lra|]).
    reflexivity. }
  rewrite Hd. cbn [argmin argmin_from].
  repeat (destruct (Rlt_dec _ _); try lra).
  reflexivity.
Qed.

Lemma world_topography_wraps_witness :
  py_slice (hd [] (srfgeo ridge)) (Z.of_nat 1 - 5) (Z.of_nat 1 + 5) = [] /\
  world_topography ridge northern
  = Ok (repeat NonFin (length (hd [] (hd [] (srfgeo ridge))))).
Proof.
  apply (world_topography_wraps ridge northern 1%nat (hd [] (srfgeo ridge)) []).
  - exact ridge_nearest_northern.
  - reflexivity.
  - lia.
  - cbn [srfgeo ridge hd length]. lia.
Defined.

(** ** The ERA-Interim anomaly *)

Lemma np_sum_fin (l : list R) : np_sum (map Fin l) = Fin (Rsum l).
Proof.
  induction l as [|v l IH]; cbn [map np_sum fold_right Rsum]; [reflexivity|].
  fold (np_sum (map Fin l)). fold (Rsum l). now rewrite IH.
Qed.

Lemma Rsum_shift (l : list R) (mu : R) :
  Rsum (map (fun v => v - mu) l) = Rsum l - INR (length l) * mu.
Proof.
  induction l as [|v l IH]; cbn [map Rsum fold_right length].
  - cbn [INR]. ring.
  - fold (Rsum (map (fun v => v - mu) l)). fold (Rsum l).
    rewrite IH, S_INR. ring.
Qed.

(** X14: when the nearest row is at least the sixth row of the upper-air
    file and the file has a longitude, the plotted ERA-Interim curve is
    finite, has one value per longitude and sums to zero: [z -= mean(z)]
    removes the zonal mean. *)
Theorem z_anomaly_zero_mean (ds : upper_air) (c : config) (iy : nat)
    (slab : list (list R)) (levels : list (list (list R)))
    (rest : list (list (list (list R)))) :
  argmin (map (fun l => Rabs (l - latd c)) (ua_latitude ds)) = Ok iy ->
  ua_z ds = (slab :: levels) :: rest ->
  (5 <= iy < length slab)%nat ->
  (0 < length (hd [] slab))%nat ->
  exists zr : list R,
    z_anomaly ds c = Ok (map Fin zr) /\
    length zr = length (hd [] slab) /\
    Rsum zr = 0.
Proof.
  intros Harg Hz [Hlo Hhi] Hcols.
  set (ncols := length (hd [] slab)) in *.
  set (zl := map (fun j => column_mean (band slab iy) j / g) (seq 0 ncols)).
  assert (Hlen : length zl = ncols) by (unfold zl; now rewrite length_map, length_seq).
  assert (Hnc : INR ncols <> 0) by (apply not_0_INR; lia).
  exists (map (fun v => v - Rsum zl / INR ncols) zl).
  split; [|split].
  - unfold z_anomaly. rewrite Harg, Hz. cbn [bind].
    rewrite band_slice by assumption. fold ncols.
    assert (HZ : map (fun v => np_div v (Fin g)) (mean_axis0 ncols (band slab iy))
                 = map Fin zl).
    { rewrite mean_axis0_fin.
      - unfold zl. rewrite !map_map. apply map_ext. intros j.
        apply np_div_fin, g_nonzero.
      - pose proof (band_length slab iy) as Hb. intros Hnil. rewrite Hnil in Hb.
        cbn [length] in Hb. lia. }
    rewrite HZ. unfold np_mean.
    rewrite np_sum_fin, length_map, Hlen, np_div_fin by assumption.
    now rewrite !map_map.
  - now rewrite length_map.
  - rewrite Rsum_shift, Hlen. field. assumption.
Qed.

Lemma z_anomaly_zero_mean_witness :
  exists zr : list R,
    z_anomaly ridge500 notebook = Ok (map Fin zr) /\
    length zr = length (hd [] (hd [] (hd [] (ua_z ridge500)))) /\
    Rsum zr = 0.
Proof.
  apply (z_anomaly_zero_mean ridge500 notebook 5%nat
           (hd [] (hd [] (ua_z ridge500))) [] []).
  - exact ridge_nearest.
  - reflexivity.
  - cbn [ua_z ridge500 hd length]. lia.
  - cbn [ua_z ridge500 hd length]. lia.
Defined.

(** ** Fields of the wrong length *)

Lemma psi_of_spsi_error (c : config) (h : list (np R)) (e : exn) :
  spsi c h = Raise e -> psi c h = Raise e.
Proof. intros Hs. unfold psi, psi_complex. now rewrite Hs. Qed.

(** X2: an empty field is refused by [fft] with [ValueError], for every
    configuration; and for a valid configuration with [n >= 2], a field of
    two or more heights whose length is not [n] cannot be divided by the
    [n] transfer denominators: [spsi] and [psi] raise [ValueError]. *)
Theorem shape_errors (c : config) (hr : list R) :
  valid_config c -> (2 <= n c)%nat -> (2 <= length hr)%nat -> length hr <> n c ->
  spsi c [] = Raise ValueError /\
  psi c [] = Raise ValueError /\
  spsi c (map Fin hr) = Raise ValueError /\
  psi c (map Fin hr) = Raise ValueError.
Proof.
  intros Hv Hn Hh Hne.
  assert (Hs : spsi c (map Fin hr) = Raise ValueError).
  { unfold spsi. rewrite sh_unfold by (destruct hr; [cbn [length] in Hh; lia | discriminate]).
    rewrite denom_unfold by assumption. cbn [bind].
    unfold broadcast2. rewrite !length_map, !length_seq.
    destruct (Nat.eqb_spec (length hr) (n c)) as [Heq|_]; [contradiction|].
    destruct (length hr) as [|[|len]]; [lia | lia |].
    destruct (n c) as [|[|len']]; [lia | lia |].
    reflexivity. }
  split; [reflexivity|]. split; [reflexivity|].
  split; [exact Hs|]. now apply psi_of_spsi_error.
Qed.

Lemma shape_errors_witness :
  spsi notebook [] = Raise ValueError /\
  psi notebook [] = Raise ValueError /\
  spsi notebook (map Fin [1; 0]) = Raise ValueError /\
  psi notebook (map Fin [1; 0]) = Raise ValueError.
Proof.
  apply (shape_errors notebook [1; 0]).
  - exact notebook_valid.
  - cbn [n notebook]. lia.
  - cbn [length]. lia.
  - cbn [length n notebook]. lia.
Defined.

(** X3: a field of a single height is not refused: numpy broadcasts the
    one spectral coefficient, which [sh[0] = 0.] has set to zero, against
    the [n] denominators, and for a valid configuration with [n >= 2] and
    [m**2 <> Ks2] the result is [n] zeros whatever the height. *)
Theorem single_height_broadcast (c : config) (v : R) :
  valid_config c -> (2 <= n c)%nat -> m c ^ 2 <> Ks2r c ->
  psi c [Fin v] = Ok (repeat (Fin 0) (n c)).
Proof.
  intros Hv Hn Hres.
  assert (Hs : spsi c (map Fin [v]) = Ok (map Fin (map (fun _ => C0) (seq 0 (n c))))).
  { unfold spsi. rewrite sh_unfold by discriminate.
    rewrite denom_unfold by assumption. cbn [bind length seq map shr].
    unfold broadcast2. cbn [length]. rewrite !length_map, !length_seq.
    destruct (Nat.eqb_spec 1 (n c)) as [Heq|_]; [lia|].
    rewrite !map_map. f_equal. apply map_ext_in. intros j Hj.
    unfold np_cdiv.
    replace (Cis_zero (denomr c j)) with false.
    - cbn [np_cmul np_map2]. rewrite Cmul_0_r. now rewrite Cdiv_0_l.
    - symmetry. apply Cis_zero_false. destruct j as [|i].
      + rewrite denomr_0. intros Hz. injection Hz as Hre. unfold H in Hre.
        apply Hres. lra.
      + apply denomr_nonzero; [assumption | lia]. }
  change [Fin v] with (map Fin [v]).
  rewrite (psi_fin c [v] _ (seq_nonempty (n c) _ ltac:(lia)) Hs).
  rewrite idft_zero.
  - rewrite length_map, length_seq, map_map. cbn [re C0].
    now rewrite map_const, length_seq.
  - intros z Hz. apply in_map_iff in Hz. now destruct Hz as (_ & <- & _).
Qed.

Lemma single_height_broadcast_witness :
  psi notebook [Fin 1] = Ok (repeat (Fin 0) (n notebook)).
Proof.
  apply (single_height_broadcast notebook 1).
  - exact notebook_valid.
  - cbn [n notebook]. lia.
  - exact notebook_off_resonance.
Defined.

(** ** Linearity of the transforms *)

Lemma dft_coeff_scale (sgn : R) (z : C) (v w : list C) (j : nat) :
  length v = length w ->
  (forall i : nat, (i < length w)%nat -> nth i v C0 = Cmul z (nth i w C0)) ->
  dft_coeff sgn v j = Cmul z (dft_coeff sgn w j).
Proof.
  intros Hlen Hnth. unfold dft_coeff. rewrite Hlen, <- Csum_map_mul.
  apply Csum_map_ext. intros i Hi. apply in_seq in Hi.
  rewrite Hnth by lia. now rewrite Cmul_assoc.
Qed.

Lemma dft_coeff_axpy (sgn : R) (z : C) (v v1 v2 : list C) (j : nat) :
  length v = length v1 -> length v2 = length v1 ->
  (forall i : nat, (i < length v1)%nat ->
     nth i v C0 = Cadd (Cmul z (nth i v1 C0)) (nth i v2 C0)) ->
  dft_coeff sgn v j = Cadd (Cmul z (dft_coeff sgn v1 j)) (dft_coeff sgn v2 j).
Proof.
  intros Hlen Hlen2 Hnth. unfold dft_coeff. rewrite Hlen, Hlen2.
  rewrite <- Csum_map_mul, <- Csum_map_add.
  apply Csum_map_ext. intros i Hi. apply in_seq in Hi.
  rewrite Hnth by lia. Ceq.
Qed.

Lemma axpy_length (s : R) (h1 h2 : list R) :
  length h2 = length h1 -> length (axpy s h1 h2) = length h1.
Proof.
  intros Hlen. unfold axpy. rewrite length_map, length_combine, Hlen.
  apply Nat.min_id.
Qed.

Lemma axpy_nth (s : R) (h1 h2 : list R) (i : nat) :
  length h2 = length h1 -> (i < length h1)%nat ->
  nth i (axpy s h1 h2) 0 = s * nth i h1 0 + nth i h2 0.
Proof.
  intros Hlen Hi. unfold axpy.
  rewrite nth_indep with (d' := (fun p => s * fst p + snd p) (0, 0))
    by (rewrite length_map, length_combine, Hlen, Nat.min_id; assumption).
  rewrite (map_nth (fun p => s * fst p + snd p)).
  rewrite combine_nth by (symmetry; assumption). reflexivity.
Qed.

Lemma axpy_map_seq (s : R) (f1 f2 : nat -> R) (len : nat) :
  axpy s (map f1 (seq 0 len)) (map f2 (seq 0 len))
  = map (fun j => s * f1 j + f2 j) (seq 0 len).
Proof. unfold axpy. now rewrite combine_map_seq, map_map. Qed.

Lemma shr_axpy (s : R) (h1 h2 : list R) (j : nat) :
  length h2 = length h1 ->
  shr (axpy s h1 h2) j = Cadd (Cmul (RtoC s) (shr h1 j)) (shr h2 j).
Proof.
  intros Hlen. destruct j as [|i]; cbn [shr]; [Ceq|].
  apply dft_coeff_axpy.
  - now rewrite !length_map, axpy_length.
  - now rewrite !length_map.
  - intros t Ht. rewrite length_map in Ht.
    rewrite !nth_map_RtoC, axpy_nth by assumption. Ceq.
Qed.

Lemma Cdiv_axpy (z w1 w2 d : C) :
  Cdiv (Cadd (Cmul z w1) w2) d = Cadd (Cmul z (Cdiv w1 d)) (Cdiv w2 d).
Proof. unfold Cdiv. apply C_eq; cbn [re im Cadd Cmul]; unfold Rdiv; ring. Qed.

Lemma spsir_axpy (c : config) (s : R) (h1 h2 : list R) (j : nat) :
  length h2 = length h1 ->
  spsir c (axpy s h1 h2) j
  = Cadd (Cmul (RtoC s) (spsir c h1 j)) (spsir c h2 j).
Proof.
  intros Hlen. unfold spsir. rewrite shr_axpy by assumption.
  rewrite <- Cdiv_axpy. f_equal. Ceq.
Qed.

(** The response in closed form, entry by entry. *)
Lemma psi_entries (c : config) (hr : list R) :
  valid_config c -> length hr = n c -> m c ^ 2 <> Ks2r c ->
  psi c (map Fin hr)
  = Ok (map Fin (map (fun i => re (Cmul (RtoC (/ INR (n c)))
                                     (dft_coeff 1 (map (spsir c hr) (seq 0 (n c))) i)))
                     (seq 0 (n c)))).
Proof.
  intros Hv Hlen Hres. pose proof Hv as (_ & _ & _ & Hn).
  rewrite (psi_fin c hr (map (spsir c hr) (seq 0 (n c))));
    [|now apply seq_nonempty | now apply spsi_fin].
  unfold idft. rewrite length_map, length_seq, !map_map. reflexivity.
Qed.

(** X4: the response is linear in the topography: for a valid
    configuration with [m**2 <> Ks2] and fields [h1], [h2] of length [n],
    the response to [s*h1 + h2] is [s] times the response to [h1] plus the
    response to [h2]. *)
Theorem psi_linear (c : config) (s : R) (h1 h2 : list R) :
  valid_config c -> m c ^ 2 <> Ks2r c ->
  length h1 = n c -> length h2 = n c ->
  exists p1 p2 : list R,
    psi c (map Fin h1) = Ok (map Fin p1) /\
    psi c (map Fin h2) = Ok (map Fin p2) /\
    length p1 = n c /\ length p2 = n c /\
    psi c (map Fin (axpy s h1 h2)) = Ok (map Fin (axpy s p1 p2)).
Proof.
  intros Hv Hres Hl1 Hl2.
  assert (Hl12 : length h2 = length h1) by congruence.
  eexists. eexists.
  split; [now apply psi_entries|]. split; [now apply psi_entries|].
  split; [now rewrite length_map, length_seq|].
  split; [now rewrite length_map, length_seq|].
  rewrite psi_entries by (assumption || (rewrite axpy_length; assumption)).
  rewrite axpy_map_seq. do 2 f_equal. apply map_ext. intros i.
  rewrite (dft_coeff_axpy 1 (RtoC s) _
             (map (spsir c h1) (seq 0 (n c))) (map (spsir c h2) (seq 0 (n c)))).
  - cbn [re im Cadd Cmul RtoC]. ring.
  - now rewrite !length_map.
  - now rewrite !length_map.
  - intros t Ht. rewrite length_map, length_seq in Ht.
    rewrite !nth_map_seq by assumption. now apply spsir_axpy.
Qed.

Lemma psi_linear_witness :
  exists p1 p2 : list R,
    psi notebook (map Fin notebook_h) = Ok (map Fin p1) /\
    psi notebook (map Fin impulse) = Ok (map Fin p2) /\
    length p1 = n notebook /\ length p2 = n notebook /\
    psi notebook (map Fin (axpy 2 notebook_h impulse)) = Ok (map Fin (axpy 2 p1 p2)).
Proof.
  apply (psi_linear notebook 2 notebook_h impulse).
  - exact notebook_valid.
  - exact notebook_off_resonance.
  - exact notebook_h_length.
  - unfold impulse. cbn [length]. now rewrite repeat_length.
Defined.

(** ** The zonal mean of the topography *)

Lemma ones_dft (len j : nat) :
  (0 < j < len)%nat ->
  dft_coeff (-1) (map (fun _ => RtoC 1) (seq 0 len)) j = C0.
Proof.
  intros Hj. unfold dft_coeff. rewrite length_map, length_seq.
  assert (HN : INR len <> 0) by (apply not_0_INR; lia).
  rewrite Csum_map_ext with
    (f' := fun i => Cconj (cis (INR i * (2 * PI * INR j / INR len)))).
  - rewrite <- (map_map (fun i => cis (INR i * (2 * PI * INR j / INR len))) Cconj).
    rewrite <- Csum_conj, roots_of_unity_sum by assumption. Ceq.
  - intros i Hi. apply in_seq in Hi.
    rewrite (nth_map_seq (fun _ => RtoC 1)) by lia.
    replace (-1 * (2 * PI * INR j * INR i / INR len))
      with (- (INR i * (2 * PI * INR j / INR len))) by (field; assumption).
    rewrite cis_neg. Ceq.
Qed.

Lemma shr_offset (hr : list R) (v : R) (j : nat) :
  (j < length hr)%nat -> shr (map (fun t => t + v) hr) j = shr hr j.
Proof.
  intros Hj. destruct j as [|i]; [reflexivity|]. cbn [shr].
  rewrite (dft_coeff_axpy (-1) (RtoC v) _
             (map (fun _ => RtoC 1) (seq 0 (length hr))) (map RtoC hr)).
  - rewrite ones_dft by lia. Ceq.
  - now rewrite !length_map, length_seq.
  - now rewrite !length_map, length_seq.
  - intros t Ht. rewrite length_map, length_seq in Ht.
    rewrite (nth_map_seq (fun _ => RtoC 1)) by assumption.
    rewrite !nth_map_RtoC.
    rewrite nth_indep with (d' := 0 + v) by (now rewrite length_map).
    rewrite (map_nth (fun t0 => t0 + v)). Ceq.
Qed.

(** X5: the zonal mean of the topography does not matter: adding the same
    height [v] to every grid point changes neither the spectrum after
    [sh[0] = 0.] nor the response, for every configuration and field. *)
Theorem psi_offset_invariant (c : config) (hr : list R) (v : R) :
  sh (map Fin (map (fun t => t + v) hr)) = sh (map Fin hr) /\
  spsi c (map Fin (map (fun t => t + v) hr)) = spsi c (map Fin hr) /\
  psi c (map Fin (map (fun t => t + v) hr)) = psi c (map Fin hr).
Proof.
  assert (Hsh : sh (map Fin (map (fun t => t + v) hr)) = sh (map Fin hr)).
  { destruct hr as [|w hr]; [reflexivity|].
    rewrite !sh_unfold by discriminate. rewrite length_map. f_equal.
    apply map_ext_in. intros j Hj. apply in_seq in Hj.
    f_equal. apply shr_offset. lia. }
  split; [exact Hsh|].
  assert (Hsp : spsi c (map Fin (map (fun t => t + v) hr)) = spsi c (map Fin hr))
    by (unfold spsi; now rewrite Hsh).
  split; [exact Hsp|]. unfold psi, psi_complex. now rewrite Hsp.
Qed.

(** ** The two hemispheres *)

Lemma mirror_f0 (c : config) : f0 (mirror c) = - f0 c.
Proof.
  unfold f0, latr, deg2rad. cbn [latd mirror].
  replace (- latd c * (PI / 180)) with (- (latd c * (PI / 180))) by ring.
  rewrite sin_neg. ring.
Qed.

Lemma mirror_cos (c : config) : cos (latr (mirror c)) = cos (latr c).
Proof.
  unfold latr, deg2rad. cbn [latd mirror].
  replace (- latd c * (PI / 180)) with (- (latd c * (PI / 180))) by ring.
  apply cos_neg.
Qed.

Lemma mirror_denomr (c : config) (j : nat) : denomr (mirror c) j = denomr c j.
Proof.
  assert (HL : Lx (mirror c) = Lx c) by (unfold Lx; now rewrite mirror_cos).
  assert (Hb : beta (mirror c) = beta c) by (unfold beta; now rewrite mirror_cos).
  unfold denomr, Ks2r, K2r, epsr, K2r, kr. rewrite HL, Hb.
  destruct j; reflexivity.
Qed.

Lemma mirror_valid (c : config) : valid_config c -> valid_config (mirror c).
Proof.
  intros (Hlat & Hu & Ht & Hn). unfold valid_config. cbn [latd u tau n mirror].
  repeat split; (lra || assumption).
Qed.

Lemma mirror_Ks2r (c : config) : Ks2r (mirror c) = Ks2r c.
Proof. unfold Ks2r, beta. now rewrite mirror_cos. Qed.

Lemma mirror_spsir (c : config) (hr : list R) (j : nat) :
  spsir (mirror c) hr j = Cmul (RtoC (-1)) (spsir c hr j).
Proof.
  unfold spsir. rewrite mirror_denomr, mirror_f0. unfold Cdiv.
  apply C_eq; cbn [re im Cmul RtoC]; unfold Rdiv; ring.
Qed.

(** X6: moving a valid configuration with [m**2 <> Ks2] to the same
    latitude of the other hemisphere changes the sign of the response and
    leaves the plotted geopotential height [psi*f0/g] as it is. *)
Theorem mirror_hemisphere (c : config) (hr : list R) :
  valid_config c -> m c ^ 2 <> Ks2r c -> length hr = n c ->
  exists pr : list R,
    psi c (map Fin hr) = Ok (map Fin pr) /\
    psi (mirror c) (map Fin hr) = Ok (map Fin (map Ropp pr)) /\
    psi_height (mirror c) (map Fin hr) = psi_height c (map Fin hr).
Proof.
  intros Hv Hres Hlen.
  assert (Hp : psi c (map Fin hr)
               = Ok (map Fin (map (fun i => re (Cmul (RtoC (/ INR (n c)))
                        (dft_coeff 1 (map (spsir c hr) (seq 0 (n c))) i)))
                      (seq 0 (n c)))))
    by (now apply psi_entries).
  assert (Hm : psi (mirror c) (map Fin hr)
               = Ok (map Fin (map Ropp
                      (map (fun i => re (Cmul (RtoC (/ INR (n c)))
                        (dft_coeff 1 (map (spsir c hr) (seq 0 (n c))) i)))
                      (seq 0 (n c)))))).
  { rewrite psi_entries;
      [|now apply mirror_valid | exact Hlen | now rewrite mirror_Ks2r].
    cbn [n mirror]. rewrite !map_map. f_equal. apply map_ext. intros i. f_equal.
    rewrite (dft_coeff_scale 1 (RtoC (-1)) _ (map (spsir c hr) (seq 0 (n c)))).
    - cbn [re im Cmul RtoC]. ring.
    - now rewrite !length_map.
    - intros t Ht. rewrite length_map, length_seq in Ht.
      rewrite !nth_map_seq by assumption. apply mirror_spsir. }
  eexists. split; [exact Hp|]. split; [exact Hm|].
  unfold psi_height. rewrite Hp, Hm. cbn [bind]. rewrite !map_map.
  f_equal. apply map_ext. intros i. rewrite mirror_f0. cbn [np_mul np_map2].
  f_equal. f_equal. ring.
Qed.

Lemma mirror_hemisphere_witness :
  exists pr : list R,
    psi notebook (map Fin notebook_h) = Ok (map Fin pr) /\
    psi (mirror notebook) (map Fin notebook_h) = Ok (map Fin (map Ropp pr)) /\
    psi_height (mirror notebook) (map Fin notebook_h)
    = psi_height notebook (map Fin notebook_h).
Proof.
  apply (mirror_hemisphere notebook notebook_h).
  - exact notebook_valid.
  - exact notebook_off_resonance.
  - exact notebook_h_length.
Defined.

(** ** Damping bounds the response *)

Lemma Cnormsq_div (z w : C) :
  w <> C0 -> Cnormsq (Cdiv z w) * Cnormsq w = Cnormsq z.
Proof.
  intros Hw. pose proof (Cnorm2_pos w Hw) as Hn.
  unfold Cnormsq, Cdiv. cbn [re im]. field. lra.
Qed.

Lemma Cnormsq_nonneg (z : C) : 0 <= Cnormsq z.
Proof. unfold Cnormsq. nra. Qed.

(** X7: the damping keeps every coefficient of the response bounded, at
    resonance too: for a valid configuration and a field of length [n],
    at every index [1 <= j <= n-1] the coefficient [spsi[j]] is finite and
    [|spsi[j]| * H * eps[j] <= |f0| * |sh[j]|], stated on the squares. *)
Theorem damping_bounds_response (c : config) (hr : list R) (j : nat) :
  valid_config c -> length hr = n c -> (1 <= j <= n c - 1)%nat ->
  sh (map Fin hr) = Ok (map (fun i => Fin (shr hr i)) (seq 0 (n c))) /\
  eps c = Ok (map (fun i => Fin (epsr c i)) (seq 0 (n c))) /\
  0 < H * epsr c j /\
  exists (sp : list (np C)) (z : C),
    spsi c (map Fin hr) = Ok sp /\
    nth_error sp j = Some (Fin z) /\
    Cnormsq z * (H * epsr c j) ^ 2 <= f0 c ^ 2 * Cnormsq (shr hr j).
Proof.
  intros Hv Hlen [Hj1 Hj2].
  pose proof (valid_epsr_pos c Hv j Hj1) as He.
  pose proof (denomr_nonzero c Hv j Hj1) as Hd.
  split.
  { rewrite <- Hlen. apply sh_unfold. destruct hr; [simpl in Hlen; lia | discriminate]. }
  split; [now apply eps_fin|].
  split; [unfold H; lra|].
  eexists. exists (spsir c hr j).
  split; [now apply spsi_unfold|].
  split.
  { rewrite nth_error_map_seq by lia. cbn [Nat.add]. f_equal.
    now apply spsi_entry_fin. }
  pose proof (Cnormsq_div (Cmul (RtoC (f0 c)) (shr hr j)) (denomr c j) Hd) as Hq.
  fold (spsir c hr j) in Hq.
  pose proof (Cnormsq_nonneg (spsir c hr j)) as Hz.
  assert (Hnum : Cnormsq (Cmul (RtoC (f0 c)) (shr hr j)) = f0 c ^ 2 * Cnormsq (shr hr j)).
  { unfold Cnormsq. cbn [re im Cmul RtoC]. ring. }
  assert (Hden : (H * epsr c j) ^ 2 <= Cnormsq (denomr c j)).
  { unfold Cnormsq, denomr. cbn [re im].
    pose proof (pow2_ge_0 (H * (K2r c j - Ks2r c))). nra. }
  rewrite <- Hnum, <- Hq.
  apply Rmult_le_compat_l; assumption.
Qed.

Lemma damping_bounds_response_witness :
  sh (map Fin impulse) = Ok (map (fun i => Fin (shr impulse i)) (seq 0 (n notebook))) /\
  eps notebook = Ok (map (fun i => Fin (epsr notebook i)) (seq 0 (n notebook))) /\
  0 < H * epsr notebook 1 /\
  exists (sp : list (np C)) (z : C),
    spsi notebook (map Fin impulse) = Ok sp /\
    nth_error sp 1 = Some (Fin z) /\
    Cnormsq z * (H * epsr notebook 1) ^ 2 <= f0 notebook ^ 2 * Cnormsq (shr impulse 1).
Proof.
  apply (damping_bounds_response notebook impulse 1%nat).
  - exact notebook_valid.
  - unfold impulse. cbn [length]. now rewrite repeat_length.
  - cbn [n notebook]. lia.
Defined.

(** ** The solution cell *)

Lemma psi_zero_sum (c : config) (hr : list R) :
  valid_config c -> length hr = n c -> m c ^ 2 <> Ks2r c ->
  exists pr : list R,
    psi c (map Fin hr) = Ok (map Fin pr) /\ length pr = n c /\ Rsum pr = 0.
Proof.
  intros Hv Hlen Hres. pose proof Hv as (_ & _ & _ & Hn).
  set (sp := map (spsir c hr) (seq 0 (n c))).
  assert (Hsp : sp <> []) by (now apply seq_nonempty).
  exists (map re (idft sp)).
  split; [rewrite map_map; apply psi_fin; [assumption | now apply spsi_fin]|].
  split.
  - unfold idft, sp. now rewrite !length_map, !length_seq.
  - rewrite Rsum_re, idft_sum by assumption.
    unfold sp. rewrite nth_map_seq by assumption. now rewrite spsir_0.
Qed.

(** X15: with the Gaussian topography the field has one height per
    entry of the array [x].  For a valid configuration with [n >= 2], an
    array [x] of two or more coordinates whose number is not [n], such as
    a grid of [n + 1] points, makes the solution cell raise [ValueError];
    an array of exactly [n] coordinates gives, when [m**2 <> Ks2], [n]
    finite values that sum to zero. *)
Theorem solution_gaussian_shape (c : config) (xs : list R) :
  valid_config c -> (2 <= n c)%nat -> (2 <= length xs)%nat ->
  (length xs <> n c -> solution_gaussian c xs = Raise ValueError) /\
  (length xs = S (n c) -> solution_gaussian c xs = Raise ValueError) /\
  (length xs = n c -> m c ^ 2 <> Ks2r c ->
   exists pr : list R,
     solution_gaussian c xs = Ok (map Fin pr) /\ length pr = n c /\ Rsum pr = 0).
Proof.
  intros Hv Hn Hxs.
  assert (Hlen : length (gaussian_topography xs) = length xs)
    by (unfold gaussian_topography; now rewrite length_map).
  assert (Hne : length xs <> n c -> solution_gaussian c xs = Raise ValueError).
  { intros Hneq. unfold solution_gaussian. apply psi_of_spsi_error.
    unfold spsi.
    rewrite sh_unfold
      by (destruct (gaussian_topography xs); [cbn [length] in Hlen; lia | discriminate]).
    rewrite denom_unfold by assumption. cbn [bind].
    unfold broadcast2. rewrite !length_map, !length_seq, Hlen.
    destruct (Nat.eqb_spec (length xs) (n c)) as [Heq|_]; [contradiction|].
    destruct (length xs) as [|[|len]]; [lia | lia |].
    destruct (n c) as [|[|len']]; [lia | lia |].
    reflexivity. }
  split; [exact Hne|]. split.
  - intros Heq. apply Hne. lia.
  - intros Heq Hres. unfold solution_gaussian.
    apply psi_zero_sum; [assumption | congruence | assumption].
Qed.

Lemma solution_gaussian_shape_witness :
  (length notebook_grid <> n notebook ->
   solution_gaussian notebook notebook_grid = Raise ValueError) /\
  (length notebook_grid = S (n notebook) ->
   solution_gaussian notebook notebook_grid = Raise ValueError) /\
  (length notebook_grid = n notebook -> m notebook ^ 2 <> Ks2r notebook ->
   exists pr : list R,
     solution_gaussian notebook notebook_grid = Ok (map Fin pr) /\
     length pr = n notebook /\ Rsum pr = 0).
Proof.
  apply (solution_gaussian_shape notebook notebook_grid).
  - exact notebook_valid.
  - cbn [n notebook]. lia.
  - unfold notebook_grid. rewrite length_map, length_seq. cbn [n notebook]. lia.
Defined.

(** X16: with the real-world topography the field has one height per
    longitude of the file, not per grid point.  For a valid configuration
    with [n >= 2] and a nearest row that is at least the sixth of the
    file, a file of two or more longitudes whose number is not [n] makes
    the solution cell raise [ValueError]; a file of exactly [n]
    longitudes gives, when [m**2 <> Ks2], [n] finite values that sum to
    zero. *)
Theorem solution_world_shape (ds : dataset) (c : config) (iy : nat)
    (slab : list (list R)) (rest : list (list (list R))) :
  valid_config c -> (2 <= n c)%nat ->
  argmin (map (fun l => Rabs (l - latd c)) (latitude ds)) = Ok iy ->
  srfgeo ds = slab :: rest ->
  (5 <= iy < length slab)%nat ->
  (2 <= length (hd [] slab))%nat ->
  (length (hd [] slab) <> n c -> solution_world ds c = Raise ValueError) /\
  (length (hd [] slab) = n c -> m c ^ 2 <> Ks2r c ->
   exists pr : list R,
     solution_world ds c = Ok (map Fin pr) /\ length pr = n c /\ Rsum pr = 0).
Proof.
  intros Hv Hn Harg Hsrf [Hlo Hhi] Hcols.
  set (hr := map (fun j => column_mean (band slab iy) j / g)
                 (seq 0 (length (hd [] slab)))).
  assert (Hlen : length hr = length (hd [] slab))
    by (unfold hr; now rewrite length_map, length_seq).
  assert (Hw : world_topography ds c = Ok (map Fin hr)).
  { unfold world_topography. rewrite Harg, Hsrf. cbn [bind].
    rewrite band_slice by assumption.
    rewrite mean_axis0_fin.
    - unfold hr. rewrite !map_map. f_equal. apply map_ext. intros j.
      apply np_div_fin, g_nonzero.
    - pose proof (band_length slab iy) as Hb. intros Hnil. rewrite Hnil in Hb.
      cbn [length] in Hb. lia. }
  unfold solution_world. rewrite Hw. cbn [bind]. split.
  - intros Hne. apply psi_of_spsi_error.
    unfold spsi. rewrite sh_unfold by (destruct hr; [cbn [length] in Hlen; lia | discriminate]).
    rewrite denom_unfold by assumption. cbn [bind].
    unfold broadcast2. rewrite !length_map, !length_seq, Hlen.
    destruct (Nat.eqb_spec (length (hd [] slab)) (n c)) as [Heq|_]; [contradiction|].
    destruct (length (hd [] slab)) as [|[|len]]; [lia | lia |].
    destruct (n c) as [|[|len']]; [lia | lia |].
    reflexivity.
  - intros Heq Hres. apply psi_zero_sum; [assumption | congruence | assumption].
Qed.

Lemma solution_world_shape_witness :
  (length (hd [] (hd [] (srfgeo ridge2))) <> n notebook ->
   solution_world ridge2 notebook = Raise ValueError) /\
  (length (hd [] (hd [] (srfgeo ridge2))) = n notebook ->
   m notebook ^ 2 <> Ks2r notebook ->
   exists pr : list R,
     solution_world ridge2 notebook = Ok (map Fin pr) /\
     length pr = n notebook /\ Rsum pr = 0).
Proof.
  apply (solution_world_shape ridge2 notebook 5%nat (hd [] (srfgeo ridge2)) []).
  - exact notebook_valid.
  - cbn [n notebook]. lia.
  - exact ridge_nearest.
  - reflexivity.
  - cbn [srfgeo ridge2 hd length]. lia.
  - cbn [srfgeo ridge2 hd length]. lia.
Defined.
